(** * EventPass (module 4): the in-memory event store and its registration counter

    A shallow embedding of [src/data/events.ts] and of the server actions
    of [src/actions/eventActions.ts], with the properties of the
    capacity-bounded counter [registeredCount].

    Conventions of the embedding.
    - The module-level array [events] is threaded explicitly: every data
      function takes the current array and returns its result together with
      the array it leaves behind.  The array holds objects; a function that
      mutates the object it found leaves the mutated object at the same
      position, and the object it returns is read at the moment of the
      return.
    - [capacity] and [registeredCount] are JavaScript numbers that the data
      model keeps integral and far below 2^53; they are integers ([Z]) here.
      [price] may carry cents and is a rational.
    - Timestamps are the ISO strings produced by [new Date().toISOString()];
      the reading of the clock is an argument [now] of the functions that
      read it, and the identifier drawn by [generateId()] is an argument
      [newId].
    - Every data function starts with [await delay(ms)] and has no other
      suspension point: what follows the [await] runs to completion on the
      JavaScript event loop.  The functions below are those synchronous
      bodies; the section on calls in flight interleaves them. *)

From Stdlib Require Import ZArith QArith.
From Stdlib Require Import Ascii String Sorted.
From stdpp Require Import base option list strings gmap.

Local Open Scope Z_scope.

(** ** Data model *)

(** Modelled from the spec: the declaration of [EventStatus] (in
    [types/event]) is not among the files embedded here.  The specification
    has three states, Draft, Open and Closed; the data and the components
    compare the status with ['borrador'], ['publicado'] and ['cancelado']. *)
Inductive EventStatus : Set :=
  | borrador
  | publicado
  | cancelado.

#[global] Instance EventStatus_eq_dec : EqDecision EventStatus.
Proof. solve_decision. Defined.

(** An event as stored, field for field.  [category] is a string literal
    union in the source and is kept as a string. *)
Record Event : Type := mkEvent {
  id : string;
  title : string;
  description : string;
  category : string;
  status : EventStatus;
  date : string;
  endDate : option string;
  location : string;
  address : string;
  capacity : Z;
  registeredCount : Z;
  price : Q;
  imageUrl : option string;
  organizerName : string;
  organizerEmail : string;
  tags : list string;
  createdAt : string;
  updatedAt : string
}.

(** The argument of [createEvent]:
    [Omit<Event, 'id' | 'registeredCount' | 'createdAt' | 'updatedAt'>]. *)
Record CreateEventInput : Type := mkCreateEventInput {
  c_title : string;
  c_description : string;
  c_category : string;
  c_status : EventStatus;
  c_date : string;
  c_endDate : option string;
  c_location : string;
  c_address : string;
  c_capacity : Z;
  c_price : Q;
  c_imageUrl : option string;
  c_organizerName : string;
  c_organizerEmail : string;
  c_tags : list string
}.

(** The properties of [Event] that the type of [createEvent]'s argument
    omits but that an object passed at run time may still carry; the spread
    [...data] copies them, and the literal then overwrites them. *)
Record ExcessProps : Type := mkExcessProps {
  x_id : option string;
  x_registeredCount : option Z;
  x_createdAt : option string;
  x_updatedAt : option string
}.

Definition noExcess : ExcessProps :=
  {| x_id := None; x_registeredCount := None;
     x_createdAt := None; x_updatedAt := None |}.

(** The argument of [updateEvent]: [Partial<Omit<Event, 'id' | 'createdAt'>>].
    [None] is an absent key.  For the two optional fields of [Event] a key
    may be present with the value [undefined], which the spread copies. *)
Record EventPatch : Type := mkEventPatch {
  p_title : option string;
  p_description : option string;
  p_category : option string;
  p_status : option EventStatus;
  p_date : option string;
  p_endDate : option (option string);
  p_location : option string;
  p_address : option string;
  p_capacity : option Z;
  p_registeredCount : option Z;
  p_price : option Q;
  p_imageUrl : option (option string);
  p_organizerName : option string;
  p_organizerEmail : option string;
  p_tags : option (list string);
  p_updatedAt : option string
}.

Definition emptyPatch : EventPatch :=
  {| p_title := None; p_description := None; p_category := None;
     p_status := None; p_date := None; p_endDate := None;
     p_location := None; p_address := None; p_capacity := None;
     p_registeredCount := None; p_price := None; p_imageUrl := None;
     p_organizerName := None; p_organizerEmail := None; p_tags := None;
     p_updatedAt := None |}.

(** The array [events]. *)
Abbreviation Store := (list Event).

(** ** Data access functions ([src/data/events.ts]) *)

(** [events.find((event) => event.id === id)], with the position of the
    object found: the first element whose id matches. *)
Definition findEvent (eid : string) (events : Store) : option (nat * Event) :=
  list_find (λ e, id e = eid) events.

(** [getEventById]: [events.find(...) ?? null]; the array is only read. *)
Definition getEventById (eid : string) (events : Store) : option Event * Store :=
  (snd <$> findEvent eid events, events).

(** [{ ...data, id: generateId(), registeredCount: 0, createdAt: now,
    updatedAt: now }]: the four keys written after the spread win over
    whatever [data] carried. *)
Definition newEventOf (data : CreateEventInput) (excess : ExcessProps)
    (newId now : string) : Event :=
  let spread_id := default "" (x_id excess) in
  let spread_registeredCount := default 0 (x_registeredCount excess) in
  let spread_createdAt := default "" (x_createdAt excess) in
  let spread_updatedAt := default "" (x_updatedAt excess) in
  let overwrite {A} (_ : A) (v : A) := v in
  {| id := overwrite spread_id newId;
     title := c_title data;
     description := c_description data;
     category := c_category data;
     status := c_status data;
     date := c_date data;
     endDate := c_endDate data;
     location := c_location data;
     address := c_address data;
     capacity := c_capacity data;
     registeredCount := overwrite spread_registeredCount 0;
     price := c_price data;
     imageUrl := c_imageUrl data;
     organizerName := c_organizerName data;
     organizerEmail := c_organizerEmail data;
     tags := c_tags data;
     createdAt := overwrite spread_createdAt now;
     updatedAt := overwrite spread_updatedAt now |}.

(** [createEvent]: builds the event, pushes it at the end of the array and
    returns it. *)
Definition createEvent (data : CreateEventInput) (excess : ExcessProps)
    (newId now : string) (events : Store) : Event * Store :=
  let newEvent := newEventOf data excess newId now in
  (newEvent, events ++ [newEvent]).

(** [{ ...events[index], ...data, updatedAt: now }]: a key of [data]
    replaces the stored value, an absent key keeps it, and [updatedAt] is
    written last. *)
Definition applyPatch (e : Event) (data : EventPatch) (now : string) : Event :=
  {| id := id e;
     title := default (title e) (p_title data);
     description := default (description e) (p_description data);
     category := default (category e) (p_category data);
     status := default (status e) (p_status data);
     date := default (date e) (p_date data);
     endDate := default (endDate e) (p_endDate data);
     location := default (location e) (p_location data);
     address := default (address e) (p_address data);
     capacity := default (capacity e) (p_capacity data);
     registeredCount := default (registeredCount e) (p_registeredCount data);
     price := default (price e) (p_price data);
     imageUrl := default (imageUrl e) (p_imageUrl data);
     organizerName := default (organizerName e) (p_organizerName data);
     organizerEmail := default (organizerEmail e) (p_organizerEmail data);
     tags := default (tags e) (p_tags data);
     createdAt := createdAt e;
     updatedAt := now |}.

(** [updateEvent]: [findIndex], [null] when the id is unknown, otherwise the
    slot is replaced by the merged object, which is returned. *)
Definition updateEvent (eid : string) (data : EventPatch) (now : string)
    (events : Store) : option Event * Store :=
  match findEvent eid events with
  | None => (None, events)
  | Some (index, old) =>
      let updated := applyPatch old data now in
      (Some updated, <[index := updated]> events)
  end.

(** [event.registeredCount += 1; event.updatedAt = now] on the object found. *)
Definition registered (event : Event) (now : string) : Event :=
  {| id := id event;
     title := title event;
     description := description event;
     category := category event;
     status := status event;
     date := date event;
     endDate := endDate event;
     location := location event;
     address := address event;
     capacity := capacity event;
     registeredCount := registeredCount event + 1;
     price := price event;
     imageUrl := imageUrl event;
     organizerName := organizerName event;
     organizerEmail := organizerEmail event;
     tags := tags event;
     createdAt := createdAt event;
     updatedAt := now |}.

(** [registerForEvent]: the three guards in the order of the source (unknown
    id, no seat left, not published), each returning [null] without a write;
    otherwise the object found is mutated in place, so the array holds the
    mutated object at the same position, and that object is returned. *)
Definition registerForEvent (eid : string) (now : string) (events : Store)
    : option Event * Store :=
  match findEvent eid events with
  | None => (None, events)
  | Some (index, event) =>
      if registeredCount event >=? capacity event then (None, events)
      else if negb (bool_decide (status event = publicado)) then (None, events)
      else
        let event' := registered event now in
        (Some event', <[index := event']> events)
  end.

(** ** The invariant of the counter *)

Definition countInBounds (e : Event) : Prop :=
  0 <= registeredCount e <= capacity e.

Definition storeInBounds (events : Store) : Prop :=
  Forall countInBounds events.

(** Every field of an event except [registeredCount] and [updatedAt]. *)
Definition sameOtherFields (e e' : Event) : Prop :=
  id e' = id e ∧ title e' = title e ∧ description e' = description e
  ∧ category e' = category e ∧ status e' = status e ∧ date e' = date e
  ∧ endDate e' = endDate e ∧ location e' = location e
  ∧ address e' = address e ∧ capacity e' = capacity e ∧ price e' = price e
  ∧ imageUrl e' = imageUrl e ∧ organizerName e' = organizerName e
  ∧ organizerEmail e' = organizerEmail e ∧ tags e' = tags e
  ∧ createdAt e' = createdAt e.

(** The three guards of [registerForEvent], as a condition on the store:
    the id is unknown, or the event found has no seat left, or it is not
    published. *)
Definition rejects (eid : string) (events : Store) : Prop :=
  findEvent eid events = None
  ∨ ∃ i e, findEvent eid events = Some (i, e)
           ∧ (capacity e <= registeredCount e ∨ status e ≠ publicado).

(** The two outcomes of [registerForEvent]: nothing happens and [null] is
    returned, or the first event with that id, published and with a seat
    left, is replaced by its registered version. *)
Inductive RegisterOutcome (eid now : string) (events : Store)
    : option Event * Store → Prop :=
  | outcome_rejected :
      rejects eid events →
      RegisterOutcome eid now events (None, events)
  | outcome_registered i e :
      findEvent eid events = Some (i, e) →
      registeredCount e < capacity e →
      status e = publicado →
      RegisterOutcome eid now events
        (Some (registered e now), <[i := registered e now]> events).

(** ** The status preselected by the form ([EventForm])

    [getValue(field)], for a field that is not a date: the value kept in
    the action state if it is truthy, else the one of [initialData] if it is
    truthy, else [undefined]; the status select then falls back on
    ['publicado'] with [??]. *)
Definition truthy (v : option string) : bool :=
  match v with
  | Some s => negb (String.eqb s "")
  | None => false
  end.

Definition getValue (stateValue initialValue : option string) : option string :=
  if truthy stateValue then stateValue
  else if truthy initialValue then initialValue
  else None.

Definition statusDefaultValue (stateValue initialValue : option string) : string :=
  default "publicado" (getValue stateValue initialValue).

(** ** The registration server action ([src/actions/eventActions.ts]) *)

(** The raw strings of the creation form, as [formData.get] returns them
    ([None] for [null]). *)
Record FormValues : Type := mkFormValues {
  v_title : option string;
  v_description : option string;
  v_category : option string;
  v_status : option string;
  v_date : option string;
  v_endDate : option string;
  v_location : option string;
  v_address : option string;
  v_capacity : option string;
  v_price : option string;
  v_imageUrl : option string;
  v_organizerName : option string;
  v_organizerEmail : option string;
  v_tags : option string
}.

(** What an action returns to the form: the keys that the actions write,
    the optional ones absent as [None]. *)
Record FormState : Type := mkFormState {
  success : bool;
  message : string;
  errors : option (gmap string (list string));
  values : option FormValues;
  data : option Event
}.

Definition registerFailure : FormState :=
  {| success := false;
     message := "No se pudo completar el registro. El evento puede estar lleno o no disponible.";
     errors := None; values := None; data := None |}.

Definition registerSuccess (event : Event) : FormState :=
  {| success := true;
     message := "¡Te has registrado correctamente!";
     errors := None; values := None; data := Some event |}.

(** [registerForEventAction]: one failure value for every [null] of the data
    layer.  ([revalidatePath] touches the page cache only.) *)
Definition registerForEventAction (eid : string) (now : string) (events : Store)
    : FormState * Store :=
  match registerForEvent eid now events with
  | (None, events') => (registerFailure, events')
  | (Some event, events') => (registerSuccess event, events')
  end.

(** ** The creation and update server actions ([src/actions/eventActions.ts])

    The actions read the submitted form, validate it with the Zod schema
    [createEventSchema] and hand the validated object to the data layer. *)

(** [formData.get(name)], cast to a string: the value of the field, or
    [null] ([None]) when the form has no such field. *)
Abbreviation FormData := (string → option string).

(** [value || undefined] on a string or [null]. *)
Definition orUndefined (v : option string) : option string :=
  if truthy v then v else None.

(** [s.split(',')]: the pieces between the commas, one piece for a string
    without a comma (also for the empty string). *)
Fixpoint split (sep : ascii) (s : string) : list string :=
  match s with
  | EmptyString => [EmptyString]
  | String c rest =>
      if Ascii.eqb c sep then EmptyString :: split sep rest
      else match split sep rest with
           | [] => [String c EmptyString]
           | piece :: pieces => String c piece :: pieces
           end
  end.

(** [filter(Boolean)] on strings keeps the non-empty ones. *)
Definition nonEmpty (s : string) : bool := negb (String.eqb s "").

(** The object [rawData] that [createEventAction] gives to the schema;
    [number] is the type of the values of [Number(...)]. *)
Record RawEvent (number : Type) : Type := mkRawEvent {
  r_title : option string;
  r_description : option string;
  r_category : option string;
  r_status : option string;
  r_date : option string;
  r_endDate : option string;
  r_location : option string;
  r_address : option string;
  r_capacity : number;
  r_price : number;
  r_imageUrl : option string;
  r_organizerName : option string;
  r_organizerEmail : option string;
  r_tags : list string
}.

(** The object [rawData] of [updateEventAction], which holds a key only for
    a field that was submitted with a value. *)
Record RawPatch (number : Type) : Type := mkRawPatch {
  rp_title : option string;
  rp_description : option string;
  rp_category : option string;
  rp_status : option string;
  rp_date : option string;
  rp_endDate : option string;
  rp_location : option string;
  rp_address : option string;
  rp_capacity : option number;
  rp_price : option number;
  rp_imageUrl : option string;
  rp_organizerName : option string;
  rp_organizerEmail : option string;
  rp_tags : option (list string)
}.

(** [Partial<CreateEventInput>], the type at which [updateEventAction]
    passes the validated object on. *)
Record PartialInput : Type := mkPartialInput {
  pi_title : option string;
  pi_description : option string;
  pi_category : option string;
  pi_status : option EventStatus;
  pi_date : option string;
  pi_endDate : option (option string);
  pi_location : option string;
  pi_address : option string;
  pi_capacity : option Z;
  pi_price : option Q;
  pi_imageUrl : option (option string);
  pi_organizerName : option string;
  pi_organizerEmail : option string;
  pi_tags : option (list string)
}.

(** A [Partial<CreateEventInput>] seen as the argument of [updateEvent]: it
    has no key [registeredCount] and no key [updatedAt]. *)
Definition patchOfPartial (d : PartialInput) : EventPatch :=
  {| p_title := pi_title d;
     p_description := pi_description d;
     p_category := pi_category d;
     p_status := pi_status d;
     p_date := pi_date d;
     p_endDate := pi_endDate d;
     p_location := pi_location d;
     p_address := pi_address d;
     p_capacity := pi_capacity d;
     p_registeredCount := None;
     p_price := pi_price d;
     p_imageUrl := pi_imageUrl d;
     p_organizerName := pi_organizerName d;
     p_organizerEmail := pi_organizerEmail d;
     p_tags := pi_tags d;
     p_updatedAt := None |}.

(** An issue reported by Zod: the path of the offending field and a
    message. *)
Record ZodIssue : Type := mkZodIssue {
  z_path : list string;
  z_message : string
}.

(** What the actions use and the files embedded here do not define: the
    conversion [Number] and the method [trim] of JavaScript, and the schema
    [createEventSchema] of [types/event] with its [safeParse], whole and
    [partial()]; a parse yields the issues or the validated object. *)
Class Externals : Type := {
  number : Type;
  Number : option string → number;
  trim : string → string;
  createEventSchema_safeParse :
    RawEvent number → list ZodIssue + CreateEventInput;
  createEventSchema_partial_safeParse :
    RawPatch number → list ZodIssue + PartialInput
}.

(** The loop over [validationResult.error.issues]: the messages are grouped
    under [issue.path.join('.')], in the order of the issues. *)
Definition collectErrors (issues : list ZodIssue) : gmap string (list string) :=
  fold_left
    (λ (errors : gmap string (list string)) issue,
       let path := String.concat "." (z_path issue) in
       <[path := default [] (errors !! path) ++ [z_message issue]]> errors)
    issues ∅.

Definition formValuesOf (formData : FormData) : FormValues :=
  {| v_title := formData "title";
     v_description := formData "description";
     v_category := formData "category";
     v_status := formData "status";
     v_date := formData "date";
     v_endDate := formData "endDate";
     v_location := formData "location";
     v_address := formData "address";
     v_capacity := formData "capacity";
     v_price := formData "price";
     v_imageUrl := formData "imageUrl";
     v_organizerName := formData "organizerName";
     v_organizerEmail := formData "organizerEmail";
     v_tags := formData "tags" |}.

Definition invalidForm (issues : list ZodIssue) (kept : option FormValues)
    : FormState :=
  {| success := false;
     message := "Por favor, corrige los errores en el formulario";
     errors := Some (collectErrors issues);
     values := kept;
     data := None |}.

Section actions.
Context `{Externals}.

(** [tags.split(',').map((t) => t.trim()).filter(Boolean)]. *)
Definition tagsOf (s : string) : list string :=
  List.filter nonEmpty (trim <$> split "," s).

Definition rawEventOf (formValues : FormValues) : RawEvent number :=
  {| r_title := v_title formValues;
     r_description := v_description formValues;
     r_category := v_category formValues;
     r_status := v_status formValues;
     r_date := v_date formValues;
     r_endDate := orUndefined (v_endDate formValues);
     r_location := v_location formValues;
     r_address := v_address formValues;
     r_capacity := Number (v_capacity formValues);
     r_price := Number (v_price formValues);
     r_imageUrl := orUndefined (v_imageUrl formValues);
     r_organizerName := v_organizerName formValues;
     r_organizerEmail := v_organizerEmail formValues;
     r_tags := tagsOf (default "" (orUndefined (v_tags formValues))) |}.

(** [createEventAction]: on a validation failure the issues and the raw
    values go back to the form and the store is not touched; otherwise the
    validated object goes to [createEvent].  ([revalidatePath] touches the
    page cache only.) *)
Definition createEventAction (formData : FormData) (newId now : string)
    (events : Store) : FormState * Store :=
  let formValues := formValuesOf formData in
  match createEventSchema_safeParse (rawEventOf formValues) with
  | inl issues => (invalidForm issues (Some formValues), events)
  | inr validated =>
      let '(event, events') :=
        createEvent validated noExcess newId now events in
      ({| success := true;
          message := "Evento creado correctamente";
          errors := None; values := None; data := Some event |}, events')
  end.

(** [if (field) rawData.field = ...]: a key is set only for a field
    submitted with a non-empty value. *)
Definition rawPatchOf (formData : FormData) : RawPatch number :=
  let submitted {A} (name : string) (f : string → A) : option A :=
    match formData name with
    | Some s => if nonEmpty s then Some (f s) else None
    | None => None
    end in
  {| rp_title := submitted "title" (λ s, s);
     rp_description := submitted "description" (λ s, s);
     rp_category := submitted "category" (λ s, s);
     rp_status := submitted "status" (λ s, s);
     rp_date := submitted "date" (λ s, s);
     rp_endDate := submitted "endDate" (λ s, s);
     rp_location := submitted "location" (λ s, s);
     rp_address := submitted "address" (λ s, s);
     rp_capacity := submitted "capacity" (λ s, Number (Some s));
     rp_price := submitted "price" (λ s, Number (Some s));
     rp_imageUrl := submitted "imageUrl" (λ s, s);
     rp_organizerName := submitted "organizerName" (λ s, s);
     rp_organizerEmail := submitted "organizerEmail" (λ s, s);
     rp_tags := submitted "tags" tagsOf |}.

(** [updateEventAction]: partial validation, then [updateEvent] with the
    validated object; an unknown id is reported as a failure. *)
Definition updateEventAction (eid : string) (formData : FormData)
    (now : string) (events : Store) : FormState * Store :=
  match createEventSchema_partial_safeParse (rawPatchOf formData) with
  | inl issues => (invalidForm issues None, events)
  | inr validated =>
      match updateEvent eid (patchOfPartial validated) now events with
      | (None, events') =>
          ({| success := false;
              message := "No se encontró el evento a actualizar";
              errors := None; values := None; data := None |}, events')
      | (Some event, events') =>
          ({| success := true;
              message := "Evento actualizado correctamente";
              errors := None; values := None; data := Some event |}, events')
      end
  end.
End actions.

(** ** Calls in flight

    An asynchronous call of [registerForEvent] is suspended once, at
    [await delay(300)], and when it is resumed it runs its body to the
    [return] without yielding.  Several callers may have calls in flight at
    once; the event loop resumes them one at a time, in any order.

    [Returned] records the outcome of a call, an event or [null], with the
    value that the event had at the moment of the return.  The object
    returned is the stored one, which later registrations go on mutating:
    the recorded value is not the caller's later view of it, and the
    properties of runs are stated on the store and on the outcomes only. *)

Inductive Call : Type :=
  | Awaiting (eid : string)
  | Returned (result : option Event).

Record Server : Type := mkServer {
  store : Store;
  calls : list Call
}.

(** The event loop resumes call number [i] when the clock reads [now].  A
    call that is not suspended cannot be resumed: the function has no loop
    and no second [await]. *)
Definition resume (i : nat) (now : string) (σ : Server) : option Server :=
  match calls σ !! i with
  | Some (Awaiting eid) =>
      let '(result, events') := registerForEvent eid now (store σ) in
      Some {| store := events'; calls := <[i := Returned result]> (calls σ) |}
  | _ => None
  end.

(** A schedule lists the resumptions in the order the event loop makes them. *)
Fixpoint run (schedule : list (nat * string)) (σ : Server) : option Server :=
  match schedule with
  | [] => Some σ
  | (i, now) :: rest =>
      match resume i now σ with
      | Some σ' => run rest σ'
      | None => None
      end
  end.

Definition isAwaiting (c : Call) : bool :=
  match c with Awaiting _ => true | Returned _ => false end.

Definition isSuccess (c : Call) : bool :=
  match c with Returned (Some _) => true | _ => false end.

Definition isFailure (c : Call) : bool :=
  match c with Returned None => true | _ => false end.

Definition awaiting (cs : list Call) : nat := length (filter isAwaiting cs).
Definition successes (cs : list Call) : nat := length (filter isSuccess cs).
Definition failures (cs : list Call) : nat := length (filter isFailure cs).

(** All calls have returned. *)
Definition settled (σ : Server) : Prop := awaiting (calls σ) = 0%nat.

(** [n] callers issue [registerForEvent(eid)] before any of them is resumed. *)
Definition issue (n : nat) (eid : string) (events : Store) : Server :=
  {| store := events; calls := replicate n (Awaiting eid) |}.

(** ** The rest of the data layer ([src/data/events.ts]) *)

(** [deleteEvent]: [findIndex]; [false] when the id is unknown, otherwise
    [events.splice(index, 1)] and [true]. *)
Definition deleteEvent (eid : string) (events : Store) : bool * Store :=
  match findEvent eid events with
  | None => (false, events)
  | Some (index, _) => (true, delete index events)
  end.

(** A JavaScript number that is compared with a price: not-a-number, an
    infinity, or a finite value. *)
Inductive JsNumber : Type :=
  | NaN
  | Infinity (negative : bool)
  | Finite (q : Q).

(** [price <= bound] for a finite price. *)
Definition leNumber (price : Q) (bound : JsNumber) : bool :=
  match bound with
  | NaN => false
  | Infinity negative => negb negative
  | Finite q => Qle_bool price q
  end.

(** What the listing and the statistics use of JavaScript: the time value of
    [new Date(s)] in milliseconds ([None] for an invalid date, whose time
    value is NaN), [toLowerCase], and [Number] on a query parameter. *)
Class Runtime : Type := {
  getTime : string → option Z;
  toLowerCase : string → string;
  toNumber : string → JsNumber
}.

(** The argument of [getEvents], every key optional.  The status is kept as
    the string it is at run time. *)
Record EventFilters : Type := mkEventFilters {
  f_search : option string;
  f_category : option string;
  f_status : option string;
  f_dateFrom : option string;
  f_dateTo : option string;
  f_priceMax : option JsNumber
}.

(** The string that a status is at run time. *)
Definition statusName (st : EventStatus) : string :=
  match st with
  | borrador => "borrador"
  | publicado => "publicado"
  | cancelado => "cancelado"
  end.

(** [s.includes(sub)]: [sub] occurs in [s]. *)
Fixpoint includes (s sub : string) : bool :=
  String.prefix sub s
  || match s with
     | EmptyString => false
     | String _ rest => includes rest sub
     end.

(** [a >= b] and [a <= b] on two dates: false as soon as one is invalid. *)
Definition dateGe (a b : option Z) : bool :=
  match a, b with
  | Some x, Some y => y <=? x
  | _, _ => false
  end.

Definition dateLe (a b : option Z) : bool :=
  match a, b with
  | Some x, Some y => x <=? y
  | _, _ => false
  end.

(** [Array.prototype.sort] with a comparator, as a stable insertion sort:
    [before x y] tells that [x], which stood before [y], stays before it
    (the comparator is not positive).  For a consistent comparator the
    stable sorted arrangement is unique, and it is what the engine returns.
    For an inconsistent one (a NaN among the keys, from an invalid date) the
    language leaves the order to the engine, which may return another order
    than this function: the order of the result is only stated for stores
    whose dates are all valid. *)
Fixpoint insertBy {A} (before : A → A → bool) (x : A) (l : list A) : list A :=
  match l with
  | [] => [x]
  | y :: rest => if before x y then x :: y :: rest else y :: insertBy before x rest
  end.

Fixpoint sort {A} (before : A → A → bool) (l : list A) : list A :=
  match l with
  | [] => []
  | x :: rest => insertBy before x (sort before rest)
  end.

(** The statistics returned by [getEventStats]. *)
Record EventStats : Type := mkEventStats {
  total : nat;
  published : nat;
  upcoming : nat;
  totalCapacity : Z;
  totalRegistered : Z
}.

Section listing.
Context `{Runtime}.

(** The predicate of the text search, on the lower-cased search string. *)
Definition matchesSearch (searchLower : string) (event : Event) : bool :=
  includes (toLowerCase (title event)) searchLower
  || includes (toLowerCase (description event)) searchLower
  || includes (toLowerCase (location event)) searchLower
  || existsb (λ tag, includes (toLowerCase tag) searchLower) (tags event).

(** The six optional filters, applied one after the other; a key that is
    absent, or falsy, skips its filter ([priceMax] is only tested against
    [undefined]). *)
Definition applyFilters (filters : EventFilters) (result : list Event)
    : list Event :=
  let result :=
    if truthy (f_search filters) then
      let searchLower := toLowerCase (default "" (f_search filters)) in
      List.filter (matchesSearch searchLower) result
    else result in
  let result :=
    if truthy (f_category filters) then
      List.filter
        (λ event, String.eqb (category event) (default "" (f_category filters)))
        result
    else result in
  let result :=
    if truthy (f_status filters) then
      List.filter
        (λ event,
           String.eqb (statusName (status event)) (default "" (f_status filters)))
        result
    else result in
  let result :=
    if truthy (f_dateFrom filters) then
      List.filter
        (λ event,
           dateGe (getTime (date event))
             (getTime (default "" (f_dateFrom filters))))
        result
    else result in
  let result :=
    if truthy (f_dateTo filters) then
      List.filter
        (λ event,
           dateLe (getTime (date event))
             (getTime (default "" (f_dateTo filters))))
        result
    else result in
  match f_priceMax filters with
  | Some priceMax => List.filter (λ event, leNumber (price event) priceMax) result
  | None => result
  end.

(** The comparator [new Date(a.date).getTime() - new Date(b.date).getTime()]
    is not positive; a NaN counts as zero. *)
Definition dateBefore (a b : Event) : bool :=
  match getTime (date a), getTime (date b) with
  | Some x, Some y => x - y <=? 0
  | _, _ => true
  end.

(** [getEvents]: a copy of the array is filtered and sorted by date; the
    array itself is only read. *)
Definition getEvents (filters : option EventFilters) (events : Store)
    : list Event * Store :=
  let result :=
    match filters with
    | Some filters => applyFilters filters events
    | None => events
    end in
  (sort dateBefore result, events).

(** [getEventStats], with the time value [nowMs] of [new Date()]. *)
Definition getEventStats (nowMs : Z) (events : Store) : EventStats * Store :=
  let isPublished := List.filter (λ e, bool_decide (status e = publicado)) events in
  let isUpcoming :=
    List.filter
      (λ e, match getTime (date e) with
            | Some t => nowMs <? t
            | None => false
            end)
      isPublished in
  ({| total := length events;
      published := length isPublished;
      upcoming := length isUpcoming;
      totalCapacity := fold_left (λ sum e, sum + capacity e) events 0;
      totalRegistered := fold_left (λ sum e, sum + registeredCount e) events 0 |},
   events).

(** ** Helpers of [src/lib/utils.ts] and the pages that use them *)

(** [isEventPast]: [new Date(dateString) < new Date()]. *)
Definition isEventPast (dateString : string) (nowMs : Z) : bool :=
  match getTime dateString with
  | Some t => t <? nowMs
  | None => false
  end.

(** The query parameters of the events page. *)
Record SearchParams : Type := mkSearchParams {
  q_search : option string;
  q_category : option string;
  q_status : option string;
  q_priceMax : option string
}.

(** The object [filters] that [EventsPage] builds from the query. *)
Definition pageFilters (params : SearchParams) : EventFilters :=
  {| f_search := q_search params;
     f_category := q_category params;
     f_status := q_status params;
     f_dateFrom := None;
     f_dateTo := None;
     f_priceMax :=
       if truthy (q_priceMax params)
       then Some (toNumber (default "" (q_priceMax params)))
       else None |}.

(** The events that [EventsPage] lists. *)
Definition eventsPage (params : SearchParams) (events : Store)
    : list Event * Store :=
  getEvents (Some (pageFilters params)) events.
End listing.

(** [getAvailableSpots]: [Math.max(0, capacity - registered)]. *)
Definition getAvailableSpots (capacity registered : Z) : Z :=
  Z.max 0 (capacity - registered).

(** [hasAvailableSpots]: [getAvailableSpots(capacity, registered) > 0]. *)
Definition hasAvailableSpots (capacity registered : Z) : bool :=
  getAvailableSpots capacity registered >? 0.

(** [EventCard]: [isSoldOut] and [isAvailable]. *)
Definition cardIsSoldOut (event : Event) : bool :=
  getAvailableSpots (capacity event) (registeredCount event) =? 0.

Definition cardIsAvailable (event : Event) : bool :=
  bool_decide (status event = publicado) && negb (cardIsSoldOut event).

(** The detail page: [isAvailable], which enables the registration button,
    from the event and [isPast = isEventPast(event.date)]. *)
Definition pageIsAvailable (isPast : bool) (event : Event) : bool :=
  bool_decide (status event = publicado)
  && negb isPast
  && (getAvailableSpots (capacity event) (registeredCount event) >? 0).

(** [deleteEventAction]: the result of [deleteEvent] as a form state.
    ([revalidatePath] touches the page cache only.) *)
Definition deleteEventAction (eid : string) (events : Store)
    : FormState * Store :=
  match deleteEvent eid events with
  | (false, events') =>
      ({| success := false;
          message := "No se encontró el evento a eliminar";
          errors := None; values := None; data := None |}, events')
  | (true, events') =>
      ({| success := true;
          message := "Evento eliminado correctamente";
          errors := None; values := None; data := None |}, events')
  end.

(** The conjunction of the filters that [filters] holds, for one event. *)
Definition passes `{Runtime} (filters : EventFilters) (event : Event) : bool :=
  (negb (truthy (f_search filters))
   || matchesSearch (toLowerCase (default "" (f_search filters))) event)
  && (negb (truthy (f_category filters))
      || String.eqb (category event) (default "" (f_category filters)))
  && (negb (truthy (f_status filters))
      || String.eqb (statusName (status event)) (default "" (f_status filters)))
  && (negb (truthy (f_dateFrom filters))
      || dateGe (getTime (date event)) (getTime (default "" (f_dateFrom filters))))
  && (negb (truthy (f_dateTo filters))
      || dateLe (getTime (date event)) (getTime (default "" (f_dateTo filters))))
  && match f_priceMax filters with
     | Some priceMax => leNumber (price event) priceMax
     | None => true
     end.

(** Two events in date order: both dates are valid and the first is not
    later than the second. *)
Definition dateOrdered `{Runtime} (a b : Event) : Prop :=
  ∃ x y, getTime (date a) = Some x ∧ getTime (date b) = Some y ∧ x <= y.

(** The sum that [reduce] computes for [totalRegistered]. *)
Definition sumRegistered (events : Store) : Z :=
  fold_left (λ sum e, sum + registeredCount e) events 0.

(** The bookkeeping of one event under registrations in flight: every call
    still suspended targets [eid]; the event found for [eid] sits at position
    [i0], published, with the capacity of [e0] and a count that is the count
    of [e0] plus one per call that succeeded; the count is within the
    capacity, and once a call has failed the event is full. *)
Definition tracksCounter (eid : string) (i0 : nat) (e0 : Event) (σ : Server)
    : Prop :=
  Forall (λ c, isAwaiting c = true → c = Awaiting eid) (calls σ)
  ∧ ∃ e, findEvent eid (store σ) = Some (i0, e)
         ∧ status e = publicado
         ∧ capacity e = capacity e0
         ∧ registeredCount e
           = registeredCount e0 + Z.of_nat (successes (calls σ))
         ∧ registeredCount e <= capacity e
         ∧ (failures (calls σ) ≠ 0%nat → capacity e <= registeredCount e).

(** ** Sample data

    Events shaped like the seed entries of [initialEvents]; the identifiers,
    drawn at start-up by [generateId()], are fixed here. *)

Definition seedEvent (eid : string) (st : EventStatus) (cap count : Z) : Event :=
  {| id := eid;
     title := "Taller de React Server Components";
     description := "Taller de 4 horas con ejercicios hands-on";
     category := "taller";
     status := st;
     date := "2026-01-28T10:00:00.000Z";
     endDate := Some "2026-01-28T14:00:00.000Z";
     location := "Campus Google Madrid";
     address := "Calle Moreno Nieto 2, 28005 Madrid";
     capacity := cap;
     registeredCount := count;
     price := 75 # 1;
     imageUrl := None;
     organizerName := "React Madrid";
     organizerEmail := "hola@reactmadrid.dev";
     tags := ["react"; "server-components"; "hands-on"];
     createdAt := "2025-12-10T09:00:00.000Z";
     updatedAt := "2025-12-22T11:00:00.000Z" |}.

(** A conference with seats left, a workshop that is full, and a draft. *)
Definition seedStore : Store :=
  [ seedEvent "c1" publicado 500 342;
    seedEvent "c2" publicado 30 30;
    seedEvent "c3" borrador 150 0 ].

Definition seedInput (st : EventStatus) (cap : Z) : CreateEventInput :=
  {| c_title := "Hackathon IA para el Bien Social";
     c_description := "Hackathon de 48 horas";
     c_category := "otro";
     c_status := st;
     c_date := "2026-03-22T09:00:00.000Z";
     c_endDate := None;
     c_location := "Impact Hub Madrid";
     c_address := "Calle Alameda 22, 28014 Madrid";
     c_capacity := cap;
     c_price := 25 # 1;
     c_imageUrl := None;
     c_organizerName := "AI Spain";
     c_organizerEmail := "hackathon@aispain.org";
     c_tags := ["hackathon"] |}.

Definition clock0 : string := "2026-01-02T08:00:00.000Z".

(** Stand-ins for the externals, used in the examples only: [Number] reads
    a string of decimal digits ([None] plays NaN), [trim] finds nothing to
    trim, and the schema asks for a known status and a positive capacity. *)
Definition digitOf (c : ascii) : option Z :=
  let n := Z.of_nat (nat_of_ascii c) in
  if (48 <=? n) && (n <=? 57) then Some (n - 48) else None.

Fixpoint digitsFrom (acc : Z) (s : string) : option Z :=
  match s with
  | EmptyString => Some acc
  | String c rest =>
      match digitOf c with
      | Some d => digitsFrom (10 * acc + d) rest
      | None => None
      end
  end.

Definition sampleNumber (v : option string) : option Z :=
  match v with
  | None => Some 0
  | Some s => digitsFrom 0 s
  end.

Definition sampleStatus (v : option string) : option EventStatus :=
  match v with
  | Some s =>
      if String.eqb s "borrador" then Some borrador
      else if String.eqb s "publicado" then Some publicado
      else if String.eqb s "cancelado" then Some cancelado
      else None
  | None => None
  end.

Definition sampleIssue (field : string) : ZodIssue :=
  {| z_path := [field]; z_message := "valor no valido" |}.

Definition sampleSafeParse (raw : RawEvent (option Z))
    : list ZodIssue + CreateEventInput :=
  match sampleStatus (r_status _ raw), r_capacity _ raw with
  | Some st, Some cap =>
      if 0 <? cap then
        inr {| c_title := default "" (r_title _ raw);
               c_description := default "" (r_description _ raw);
               c_category := default "" (r_category _ raw);
               c_status := st;
               c_date := default "" (r_date _ raw);
               c_endDate := r_endDate _ raw;
               c_location := default "" (r_location _ raw);
               c_address := default "" (r_address _ raw);
               c_capacity := cap;
               c_price := inject_Z (default 0 (r_price _ raw));
               c_imageUrl := r_imageUrl _ raw;
               c_organizerName := default "" (r_organizerName _ raw);
               c_organizerEmail := default "" (r_organizerEmail _ raw);
               c_tags := r_tags _ raw |}
      else inl [sampleIssue "capacity"]
  | None, _ => inl [sampleIssue "status"]
  | _, None => inl [sampleIssue "capacity"]
  end.

Definition sampleSafeParsePartial (raw : RawPatch (option Z))
    : list ZodIssue + PartialInput :=
  match rp_capacity _ raw with
  | Some None => inl [sampleIssue "capacity"]
  | Some (Some cap) =>
      if 0 <? cap then
        inr (mkPartialInput (rp_title _ raw) None None None None None None None
               (Some cap) None None None None None)
      else inl [sampleIssue "capacity"]
  | None =>
      inr (mkPartialInput (rp_title _ raw) None None None None None None None
             None None None None None None)
  end.

Definition sampleExternals : Externals :=
  {| number := option Z;
     Number := sampleNumber;
     trim := λ s, s;
     createEventSchema_safeParse := sampleSafeParse;
     createEventSchema_partial_safeParse := sampleSafeParsePartial |}.

(** A submitted form that only asks for a capacity. *)
Definition capacityForm (cap : string) : FormData :=
  λ name, if String.eqb name "capacity" then Some cap else None.

(** The creation form as submitted with its preselected status. *)
Definition creationForm : FormData :=
  λ name,
    if String.eqb name "status" then Some (statusDefaultValue None None)
    else if String.eqb name "capacity" then Some "150"
    else if String.eqb name "title" then Some "Hackathon IA"
    else None.

(** Scenario A of the specification: one seat, two callers. *)
Definition lastSeat : Server := issue 2 "c1" [seedEvent "c1" publicado 1 0].

(** Stand-ins for the run time, used in the examples only: the time value
    of a date is read off the digits of its year, month and day
    ([YYYY-MM-DD...], [None] for anything else), [toLowerCase] lowers the
    letters A to Z, and [toNumber] reads a string of decimal digits. *)
Definition sampleGetTime (s : string) : option Z :=
  if (String.length s <? 10)%nat then None
  else digitsFrom 0 (String.substring 0 4 s ++ String.substring 5 2 s
                     ++ String.substring 8 2 s)%string.

Definition lowerAscii (c : ascii) : ascii :=
  let n := nat_of_ascii c in
  if ((65 <=? n) && (n <=? 90))%nat then ascii_of_nat (n + 32) else c.

Fixpoint sampleToLowerCase (s : string) : string :=
  match s with
  | EmptyString => EmptyString
  | String c rest => String (lowerAscii c) (sampleToLowerCase rest)
  end.

Definition sampleToNumber (s : string) : JsNumber :=
  match digitsFrom 0 s with
  | Some n => Finite (inject_Z n)
  | None => NaN
  end.

Definition sampleRuntime : Runtime :=
  {| getTime := sampleGetTime;
     toLowerCase := sampleToLowerCase;
     toNumber := sampleToNumber |}.

(** The seed event with another date. *)
Definition seedEventOn (eid day : string) : Event :=
  let e := seedEvent eid publicado 30 28 in
  {| id := id e; title := title e; description := description e;
     category := category e; status := status e; date := day;
     endDate := endDate e; location := location e; address := address e;
     capacity := capacity e; registeredCount := registeredCount e;
     price := price e; imageUrl := imageUrl e;
     organizerName := organizerName e; organizerEmail := organizerEmail e;
     tags := tags e; createdAt := createdAt e; updatedAt := updatedAt e |}.

(** Three events stored out of date order, two of them on the same day. *)
Definition datedStore : Store :=
  [ seedEventOn "d1" "2026-03-22T09:00:00.000Z";
    seedEventOn "d2" "2026-01-05T20:00:00.000Z";
    seedEventOn "d3" "2026-03-22T18:00:00.000Z" ].

(** Calls in flight on several ids, one of them unknown. *)
Definition mixedCallers : Server :=
  {| store := seedStore;
     calls := [Awaiting "c1"; Awaiting "c2"; Awaiting "c9"; Awaiting "c1"] |}.

(** * Properties *)

(** ** Lookup *)

Lemma findEvent_Some eid events i e :
  findEvent eid events = Some (i, e) →
  events !! i = Some e ∧ id e = eid.
Proof.
  unfold findEvent. intros Hf.
  apply list_find_Some in Hf as (Hl & Hid & _). done.
Qed.

(** Writing back an object with the same id at the position found does not
    move the first match. *)
Lemma findEvent_insert_same eid events i e e' :
  findEvent eid events = Some (i, e) →
  id e' = eid →
  findEvent eid (<[i := e']> events) = Some (i, e').
Proof.
  unfold findEvent. intros Hf Hid.
  apply list_find_Some in Hf as (Hl & _ & Hmin).
  apply list_find_insert_Some. right; left.
  split_and!; eauto using lookup_lt_Some.
Qed.

(** ** The shape of a registration *)

Lemma registerForEvent_outcome eid now events :
  RegisterOutcome eid now events (registerForEvent eid now events).
Proof.
  unfold registerForEvent.
  destruct (findEvent eid events) as [[i e]|] eqn:Hf.
  - destruct (Z.geb_spec (registeredCount e) (capacity e)) as [Hge|Hlt].
    + constructor. right. exists i, e. split; [done|]. left. lia.
    + case_bool_decide as Hst; simpl.
      * by apply outcome_registered.
      * constructor. right. exists i, e. split; [done|]. by right.
  - constructor. by left.
Qed.

Lemma registerForEvent_accepts eid now events i e :
  findEvent eid events = Some (i, e) →
  registeredCount e < capacity e →
  status e = publicado →
  registerForEvent eid now events
  = (Some (registered e now), <[i := registered e now]> events).
Proof.
  intros Hf Hlt Hst. unfold registerForEvent. rewrite Hf.
  destruct (Z.geb_spec (registeredCount e) (capacity e)); [lia|].
  rewrite bool_decide_eq_true_2 by done. done.
Qed.

Lemma registerForEvent_full eid now events i e :
  findEvent eid events = Some (i, e) →
  capacity e <= registeredCount e →
  registerForEvent eid now events = (None, events).
Proof.
  intros Hf Hge. unfold registerForEvent. rewrite Hf.
  destruct (Z.geb_spec (registeredCount e) (capacity e)); [done|lia].
Qed.

Lemma registered_in_bounds e now :
  countInBounds e → registeredCount e < capacity e →
  countInBounds (registered e now).
Proof. unfold countInBounds. simpl. lia. Qed.

(** ** Sequential properties of the store *)

Lemma registerForEvent_bounds eid now events :
  storeInBounds events → storeInBounds (registerForEvent eid now events).2.
Proof.
  intros Hinv.
  destruct (registerForEvent_outcome eid now events) as [_|i e Hf Hlt Hst];
    simpl; [done|].
  apply findEvent_Some in Hf as [Hl _].
  apply Forall_insert; [done|].
  apply registered_in_bounds; [|done].
  by eapply (Forall_lookup_1 countInBounds events).
Qed.

(** C1. A call of [registerForEvent], whatever its id and whatever it
    returns, keeps [0 <= registeredCount <= capacity] for every event of the
    store when every event satisfied it before; in particular no count goes
    negative. *)
Theorem registerForEvent_preserves_bounds (eid now : string) (events : Store) :
  storeInBounds events →
  storeInBounds (registerForEvent eid now events).2
  ∧ Forall (λ e, 0 <= registeredCount e) (registerForEvent eid now events).2.
Proof.
  intros Hinv.
  pose proof (registerForEvent_bounds eid now events Hinv) as Hpost.
  split; [done|].
  eapply Forall_impl; [exact Hpost|]. unfold countInBounds. intros e; lia.
Qed.

Lemma registerForEvent_preserves_bounds_witness :
  storeInBounds seedStore
  ∧ storeInBounds (registerForEvent "c1" clock0 seedStore).2.
Proof.
  assert (storeInBounds seedStore) as H.
  { unfold seedStore, storeInBounds, countInBounds, seedEvent.
    repeat constructor; simpl; lia. }
  split; [exact H|].
  exact (proj1 (registerForEvent_preserves_bounds "c1" clock0 seedStore H)).
Defined.

(** C5. When the event found for the id is published and has a seat left,
    [registerForEvent] succeeds; the event returned sits in the store at the
    position of the event found, with [registeredCount] one higher,
    [updatedAt] set to the current clock reading and every other field as
    before; the array keeps its length and every other position is
    untouched. *)
Theorem registerForEvent_frame (eid now : string) (events : Store)
    (i : nat) (e : Event) :
  findEvent eid events = Some (i, e) →
  status e = publicado →
  registeredCount e < capacity e →
  ∃ e' events',
    registerForEvent eid now events = (Some e', events')
    ∧ events' !! i = Some e'
    ∧ registeredCount e' = registeredCount e + 1
    ∧ updatedAt e' = now
    ∧ sameOtherFields e e'
    ∧ length events' = length events
    ∧ ∀ j, j ≠ i → events' !! j = events !! j.
Proof.
  intros Hf Hst Hlt.
  exists (registered e now), (<[i := registered e now]> events).
  pose proof (findEvent_Some _ _ _ _ Hf) as [Hl _].
  split_and!.
  - by apply registerForEvent_accepts.
  - apply list_lookup_insert_eq. by eapply lookup_lt_Some.
  - done.
  - done.
  - by repeat split.
  - apply length_insert.
  - intros j Hj. by apply list_lookup_insert_ne.
Qed.

Lemma registerForEvent_frame_witness :
  ∃ e' events',
    registerForEvent "c1" clock0 seedStore = (Some e', events')
    ∧ events' !! 0%nat = Some e'
    ∧ registeredCount e' = 343
    ∧ updatedAt e' = clock0.
Proof.
  destruct (registerForEvent_frame "c1" clock0 seedStore 0
              (seedEvent "c1" publicado 500 342))
    as (e' & events' & Hr & Hl & Hc & Hu & _);
    [reflexivity | reflexivity | simpl; lia |].
  exists e', events'. split_and!; [exact Hr | exact Hl | exact Hc | exact Hu].
Defined.

(** C6. A rejected call writes nothing: whenever [registerForEvent] returns
    [null] the store it leaves is the store it was given, and so it is for
    the failure value of [registerForEventAction]. *)
Theorem registerForEvent_rejection_atomic (eid now : string) (events : Store) :
  ((registerForEvent eid now events).1 = None →
   (registerForEvent eid now events).2 = events)
  ∧ (success (registerForEventAction eid now events).1 = false →
     (registerForEventAction eid now events).2 = events)
  ∧ (rejects eid events ↔ (registerForEvent eid now events).1 = None).
Proof.
  unfold registerForEventAction.
  destruct (registerForEvent_outcome eid now events) as [Hrej|i e Hf Hlt Hst];
    simpl; split_and!; try done.
  split; [|done].
  intros [Hn|(i' & e' & Hf' & Hc)]; [congruence|].
  rewrite Hf in Hf'. simplify_eq. destruct Hc; [lia|done].
Qed.

Lemma registerForEvent_rejection_atomic_witness :
  (registerForEvent "c3" clock0 seedStore).1 = None
  ∧ (registerForEvent "c3" clock0 seedStore).2 = seedStore.
Proof.
  split; [reflexivity|].
  apply (proj1 (registerForEvent_rejection_atomic "c3" clock0 seedStore)).
  reflexivity.
Defined.

(** C9. Reading is idempotent: [getEventById] leaves the store as it is, and
    a second call with nothing in between returns what the first returned. *)
Theorem getEventById_idempotent (eid : string) (events : Store) :
  (getEventById eid events).2 = events
  ∧ (getEventById eid (getEventById eid events).2).1
    = (getEventById eid events).1.
Proof. unfold getEventById. simpl. done. Qed.

(** C10. Whatever the input, and whatever count or timestamps the object
    passed carries besides, the event that [createEvent] returns and appends
    to the store has [registeredCount = 0] and [createdAt = updatedAt]; with
    a capacity that is not negative it satisfies the bounds of the counter. *)
Theorem createEvent_starts_empty (input : CreateEventInput) (excess : ExcessProps)
    (newId now : string) (events : Store) :
  let '(e, events') := createEvent input excess newId now events in
  registeredCount e = 0
  ∧ createdAt e = updatedAt e
  ∧ events' = events ++ [e]
  ∧ (0 <= c_capacity input → countInBounds e).
Proof.
  unfold createEvent, countInBounds; simpl. split_and!; try done; lia.
Qed.

Lemma createEvent_starts_empty_witness :
  let '(e, events') :=
    createEvent (seedInput borrador 150)
      {| x_id := None; x_registeredCount := Some 99;
         x_createdAt := None; x_updatedAt := None |}
      "c4" clock0 seedStore in
  registeredCount e = 0 ∧ countInBounds e.
Proof.
  pose proof (createEvent_starts_empty (seedInput borrador 150)
    {| x_id := None; x_registeredCount := Some 99;
       x_createdAt := None; x_updatedAt := None |}
    "c4" clock0 seedStore) as H.
  simpl in H. destruct H as (H0 & _ & _ & Hb).
  simpl. split; [exact H0|]. apply Hb. lia.
Defined.

(** ** What a caller learns from a rejection *)

Lemma registerForEvent_rejects eid now events :
  rejects eid events → registerForEvent eid now events = (None, events).
Proof.
  intros Hrej.
  destruct (registerForEvent_outcome eid now events) as [_|i e Hf Hlt Hst];
    [done|].
  destruct Hrej as [Hn|(i' & e' & Hf' & Hc)]; [congruence|].
  rewrite Hf in Hf'. simplify_eq. destruct Hc; [lia|done].
Qed.

Lemma registerForEvent_null_rejects eid now events :
  (registerForEvent eid now events).1 = None → rejects eid events.
Proof.
  destruct (registerForEvent_outcome eid now events) as [Hrej|i e Hf Hlt Hst];
    [done|]. simpl. done.
Qed.

(** C3, as the code has it.  A call is rejected exactly when the id is
    unknown, the event found has no seat left, or it is not published; in
    each of the three cases [registerForEvent] returns [null] and
    [registerForEventAction] returns the one value [registerFailure], so the
    value returned does not tell the cases apart. *)
Theorem register_rejection_is_uniform (eid now : string) (events : Store) :
  (rejects eid events →
   (registerForEvent eid now events).1 = None
   ∧ (registerForEventAction eid now events).1 = registerFailure)
  ∧ ((registerForEvent eid now events).1 = None → rejects eid events)
  ∧ ((registerForEventAction eid now events).1 = registerFailure →
     rejects eid events).
Proof.
  split_and!.
  - intros Hrej. unfold registerForEventAction.
    by rewrite (registerForEvent_rejects _ now _ Hrej).
  - apply registerForEvent_null_rejects.
  - unfold registerForEventAction.
    destruct (registerForEvent_outcome eid now events) as [Hrej|i e Hf Hlt Hst];
      [done|]. discriminate.
Qed.

Lemma register_rejection_is_uniform_witness :
  rejects "c2" seedStore
  ∧ (registerForEventAction "c2" clock0 seedStore).1 = registerFailure.
Proof.
  assert (rejects "c2" seedStore) as H.
  { right. exists 1%nat, (seedEvent "c2" publicado 30 30).
    split; [reflexivity|]. left. simpl. lia. }
  split; [exact H|].
  exact (proj2 (proj1 (register_rejection_is_uniform "c2" clock0 seedStore) H)).
Defined.

(** C3 fails as stated: an unknown id, a full event and a draft with seats
    left give the same value at both layers, so no function of the value
    returned separates the three causes. *)
Lemma register_rejection_reason_counterexample :
  findEvent "c9" seedStore = None
  ∧ findEvent "c2" seedStore = Some (1%nat, seedEvent "c2" publicado 30 30)
  ∧ findEvent "c3" seedStore = Some (2%nat, seedEvent "c3" borrador 150 0)
  ∧ (registerForEvent "c9" clock0 seedStore).1 = None
  ∧ (registerForEvent "c2" clock0 seedStore).1 = None
  ∧ (registerForEvent "c3" clock0 seedStore).1 = None
  ∧ ∀ (R : Type) (reasonOf : FormState → R),
      reasonOf (registerForEventAction "c9" clock0 seedStore).1
      = reasonOf (registerForEventAction "c2" clock0 seedStore).1
      ∧ reasonOf (registerForEventAction "c2" clock0 seedStore).1
        = reasonOf (registerForEventAction "c3" clock0 seedStore).1.
Proof. split_and!; try reflexivity. intros R reasonOf. split; reflexivity. Qed.

(** ** Editing the capacity *)

Lemma updateEvent_found eid data now events i e :
  findEvent eid events = Some (i, e) →
  updateEvent eid data now events
  = (Some (applyPatch e data now), <[i := applyPatch e data now]> events).
Proof. intros Hf. unfold updateEvent. by rewrite Hf. Qed.

(** The update action writes the store through [updateEvent] only, with the
    object the schema returned. *)
Lemma updateEventAction_valid `{Externals} eid formData now events validated :
  createEventSchema_partial_safeParse (rawPatchOf formData) = inr validated →
  (updateEventAction eid formData now events).2
  = (updateEvent eid (patchOfPartial validated) now events).2
  ∧ data (updateEventAction eid formData now events).1
    = (updateEvent eid (patchOfPartial validated) now events).1
  ∧ (success (updateEventAction eid formData now events).1 = true
     ↔ is_Some (findEvent eid events)).
Proof.
  intros Hv. unfold updateEventAction, updateEvent. rewrite Hv.
  destruct (findEvent eid events) as [[i e]|]; simpl; split_and!;
    try done; split; try done; try (by intros [? ?]); eauto.
Qed.

Lemma updateEventAction_invalid `{Externals} eid formData now events issues :
  createEventSchema_partial_safeParse (rawPatchOf formData) = inl issues →
  updateEventAction eid formData now events
  = (invalidForm issues None, events).
Proof. intros Hv. unfold updateEventAction. by rewrite Hv. Qed.

(** C4, as the code has it.  The capacity may be edited, and [updateEvent]
    stores the capacity requested without looking at [registeredCount].  With
    a store within bounds and the event found for the id: an update that
    leaves the count alone and asks for no capacity below the count of that
    event succeeds and keeps the store within bounds; so does
    [updateEventAction] when the capacity that the schema returns, if any,
    is not below that count. *)
Theorem updateEvent_keeps_bounds `{Externals} (eid : string) (events : Store)
    (i : nat) (e : Event) :
  storeInBounds events →
  findEvent eid events = Some (i, e) →
  (∀ (patch : EventPatch) (now : string),
     p_registeredCount patch = None →
     (∀ c, p_capacity patch = Some c → registeredCount e <= c) →
     ∃ e', updateEvent eid patch now events = (Some e', <[i := e']> events)
           ∧ capacity e' = default (capacity e) (p_capacity patch)
           ∧ registeredCount e' = registeredCount e
           ∧ storeInBounds (<[i := e']> events))
  ∧ (∀ (formData : FormData) (now : string) (validated : PartialInput),
       createEventSchema_partial_safeParse (rawPatchOf formData)
       = inr validated →
       (∀ c, pi_capacity validated = Some c → registeredCount e <= c) →
       success (updateEventAction eid formData now events).1 = true
       ∧ storeInBounds (updateEventAction eid formData now events).2).
Proof.
  intros Hinv Hf.
  pose proof (findEvent_Some _ _ _ _ Hf) as [Hl _].
  assert (countInBounds e) as He
    by (by eapply (Forall_lookup_1 countInBounds events)).
  assert (∀ (patch : EventPatch) (now : string),
            p_registeredCount patch = None →
            (∀ c, p_capacity patch = Some c → registeredCount e <= c) →
            storeInBounds (<[i := applyPatch e patch now]> events)) as Hkeep.
  { intros patch now Hcount Hcap. apply Forall_insert; [done|].
    unfold countInBounds in *. simpl. rewrite Hcount. simpl.
    destruct (p_capacity patch) as [c|]; simpl; [|lia].
    specialize (Hcap c eq_refl). lia. }
  split.
  - intros patch now Hcount Hcap. exists (applyPatch e patch now).
    split_and!; [by apply updateEvent_found|done| |by apply Hkeep].
    simpl. by rewrite Hcount.
  - intros formData now validated Hv Hcap.
    destruct (updateEventAction_valid eid formData now events validated Hv)
      as (Hstore & _ & Hsucc).
    split; [apply Hsucc; eauto|].
    rewrite Hstore, (updateEvent_found _ _ now _ _ _ Hf). simpl.
    by apply Hkeep.
Qed.

Lemma updateEvent_keeps_bounds_witness :
  storeInBounds seedStore
  ∧ findEvent "c1" seedStore = Some (0%nat, seedEvent "c1" publicado 500 342)
  ∧ (∃ e', updateEvent "c1"
             (mkEventPatch None None None None None None None None
                (Some 400) None None None None None None None)
             clock0 seedStore = (Some e', <[0%nat := e']> seedStore)
           ∧ capacity e' = 400
           ∧ storeInBounds (<[0%nat := e']> seedStore))
  ∧ storeInBounds
      (@updateEventAction sampleExternals "c1" (capacityForm "400")
         clock0 seedStore).2.
Proof.
  assert (storeInBounds seedStore) as Hb.
  { unfold seedStore, storeInBounds, countInBounds, seedEvent.
    repeat constructor; simpl; lia. }
  destruct (@updateEvent_keeps_bounds sampleExternals "c1" seedStore 0
              (seedEvent "c1" publicado 500 342) Hb eq_refl) as [Hdata Hact].
  split_and!; [exact Hb | reflexivity | |].
  - destruct (Hdata (mkEventPatch None None None None None None None None
                       (Some 400) None None None None None None None) clock0)
      as (e' & Hu & Hc & _ & Hs).
    + reflexivity.
    + intros c Hc. simpl in Hc. injection Hc as <-. simpl. lia.
    + exists e'. split_and!; [exact Hu | exact Hc | exact Hs].
  - apply (Hact (capacityForm "400") clock0
             (mkPartialInput None None None None None None None None
                (Some 400) None None None None None)).
    + reflexivity.
    + intros c Hc. simpl in Hc. injection Hc as <-. simpl. lia.
Defined.

(** C4 fails as stated: lowering the capacity of the conference from 500 to
    100 succeeds and leaves 342 registrations against a capacity of 100. *)
Lemma updateEvent_capacity_counterexample :
  storeInBounds seedStore
  ∧ ∃ e' events',
      updateEvent "c1" (mkEventPatch None None None None None None None None
                          (Some 100) None None None None None None None)
        clock0 seedStore = (Some e', events')
      ∧ events' !! 0%nat = Some e'
      ∧ capacity e' = 100
      ∧ registeredCount e' = 342
      ∧ ¬ registeredCount e' <= capacity e'.
Proof.
  split.
  - unfold seedStore, storeInBounds, countInBounds, seedEvent.
    repeat constructor; simpl; lia.
  - eexists _, _. split; [reflexivity|]. simpl. split_and!; try reflexivity. lia.
Qed.

(** ** The status of a new event *)

(** C8, as the code has it.  [createEvent] stores the event with the status
    of its input, at the end of the array; it is a draft when, and only
    when, the input says so.  [createEventAction] stores the status that the
    schema returns for the submitted form, and stores nothing when the form
    is invalid.  The creation form, with nothing kept from a failed
    submission and no event being edited, preselects ['publicado']. *)
Theorem createEvent_keeps_input_status `{Externals} (newId now : string)
    (events : Store) :
  (∀ (input : CreateEventInput) (excess : ExcessProps),
     let '(e, events') := createEvent input excess newId now events in
     status e = c_status input
     ∧ events' = events ++ [e]
     ∧ events' !! length events = Some e
     ∧ (status e = borrador ↔ c_status input = borrador))
  ∧ (∀ (formData : FormData),
       match createEventSchema_safeParse (rawEventOf (formValuesOf formData))
       with
       | inr validated =>
           ∃ e, createEventAction formData newId now events
                = ({| success := true;
                      message := "Evento creado correctamente";
                      errors := None; values := None; data := Some e |},
                   events ++ [e])
                ∧ status e = c_status validated
       | inl issues =>
           createEventAction formData newId now events
           = (invalidForm issues (Some (formValuesOf formData)), events)
       end)
  ∧ statusDefaultValue None None = "publicado".
Proof.
  split_and!; [| |reflexivity].
  - intros input excess. unfold createEvent; simpl.
    split_and!; [done|done| |done].
    by rewrite lookup_app_r, Nat.sub_diag by lia.
  - intros formData. unfold createEventAction.
    destruct (createEventSchema_safeParse _) as [issues|validated]; [done|].
    unfold createEvent. eexists. split; reflexivity.
Qed.

(** C8 fails as stated: a valid input whose status is ['publicado'] (what
    the form preselects) is stored as published, with no later transition. *)
Lemma createEvent_status_counterexample :
  let '(e, events') :=
    createEvent (seedInput publicado 150) noExcess "c4" clock0 seedStore in
  events' !! 3%nat = Some e ∧ status e = publicado ∧ status e ≠ borrador.
Proof. simpl. split_and!; [reflexivity | reflexivity | discriminate]. Qed.

(** ** Calls in flight: what a resumption does *)

Section counting.
Context {A : Type} (f : A → bool).

(** Replacing one element moves a count by what the old element
    contributed and what the new one contributes. *)
Lemma count_insert (l : list A) (i : nat) (x y : A) :
  l !! i = Some x →
  (length (filter f (<[i := y]> l)) + (if f x then 1 else 0)
   = length (filter f l) + (if f y then 1 else 0))%nat.
Proof.
  revert i. induction l as [|a l IH]; intros [|i] Hl; simplify_eq/=.
  - rewrite !filter_cons. destruct (f x), (f y); simpl; lia.
  - rewrite !filter_cons. specialize (IH i Hl). destruct (f a); simpl; lia.
Qed.

Lemma count_pos_lookup (l : list A) :
  length (filter f l) ≠ 0%nat → ∃ i x, l !! i = Some x ∧ f x = true.
Proof.
  induction l as [|a l IH]; [done|].
  rewrite filter_cons. destruct (f a) eqn:Ha; simpl.
  - intros _. by exists 0%nat, a.
  - intros H. destruct (IH H) as (i & x & ? & ?). by exists (S i), x.
Qed.
End counting.

Lemma calls_partition (cs : list Call) :
  (awaiting cs + successes cs + failures cs = length cs)%nat.
Proof.
  unfold awaiting, successes, failures.
  induction cs as [|c cs IH]; [done|].
  rewrite !filter_cons. destruct c as [eid|[e|]]; simpl; lia.
Qed.

Lemma awaiting_replicate (n : nat) (eid : string) :
  awaiting (replicate n (Awaiting eid)) = n
  ∧ successes (replicate n (Awaiting eid)) = 0%nat
  ∧ failures (replicate n (Awaiting eid)) = 0%nat.
Proof.
  unfold awaiting, successes, failures.
  induction n as [|n IH]; [done|]. simpl. rewrite !filter_cons. simpl. lia.
Qed.

(** Inversion of a resumption: the call was suspended on some id, and the
    server afterwards is the outcome of one run of the body of
    [registerForEvent] on the store of that moment. *)
Lemma resume_inv i now σ σ' :
  resume i now σ = Some σ' →
  ∃ eid, calls σ !! i = Some (Awaiting eid)
         ∧ store σ' = (registerForEvent eid now (store σ)).2
         ∧ calls σ'
           = <[i := Returned (registerForEvent eid now (store σ)).1]> (calls σ).
Proof.
  unfold resume. intros H.
  destruct (calls σ !! i) as [[eid|r]|] eqn:Hc; try done.
  exists eid. split; [done|].
  destruct (registerForEvent eid now (store σ)) as [result events'].
  by injection H as <-.
Qed.

Lemma resume_awaiting i now σ eid :
  calls σ !! i = Some (Awaiting eid) → is_Some (resume i now σ).
Proof.
  intros Hc. unfold resume. rewrite Hc.
  destruct (registerForEvent eid now (store σ)); eauto.
Qed.

Lemma resume_counts i now σ σ' :
  resume i now σ = Some σ' →
  (awaiting (calls σ) = S (awaiting (calls σ')))%nat.
Proof.
  intros (eid & Hc & _ & ->)%resume_inv. unfold awaiting.
  pose proof (count_insert isAwaiting (calls σ) i (Awaiting eid)
    (Returned (registerForEvent eid now (store σ)).1) Hc) as H.
  simpl in H. lia.
Qed.

(** Progress: the calls in flight can always be run to the end. *)
Lemma run_to_settled (σ : Server) :
  ∃ schedule σ', run schedule σ = Some σ' ∧ settled σ'.
Proof.
  remember (awaiting (calls σ)) as m eqn:Hm.
  revert σ Hm. induction m as [|m IH]; intros σ Hm.
  - exists [], σ. split; [done|]. by unfold settled.
  - destruct (count_pos_lookup isAwaiting (calls σ)) as (i & c & Hc & Hi).
    { unfold awaiting in Hm. lia. }
    destruct c as [eid|r]; [|done].
    destruct (resume_awaiting i "" σ eid Hc) as [σ1 Hres].
    pose proof (resume_counts _ _ _ _ Hres) as Hcnt.
    destruct (IH σ1) as (schedule & σ' & Hrun & Hset); [lia|].
    exists ((i, "") :: schedule), σ'. split; [|done]. simpl. by rewrite Hres.
Qed.

(** The bounds of the counters survive every interleaving of calls, running
    to the end or not. *)
Lemma run_bounds schedule σ σ' :
  storeInBounds (store σ) →
  run schedule σ = Some σ' →
  storeInBounds (store σ').
Proof.
  revert σ. induction schedule as [|[i now] rest IH]; intros σ Hinv Hrun.
  - by simplify_eq/=.
  - simpl in Hrun. destruct (resume i now σ) as [σ1|] eqn:Hres; [|done].
    apply (IH σ1); [|done].
    apply resume_inv in Hres as (eid & _ & -> & _).
    by apply registerForEvent_bounds.
Qed.

(** ** Calls in flight against one event *)

Section one_event.
Variables (eid : string) (i0 : nat) (e0 : Event).

Lemma tracksCounter_issue (n : nat) (events : Store) :
  findEvent eid events = Some (i0, e0) →
  status e0 = publicado →
  registeredCount e0 <= capacity e0 →
  tracksCounter eid i0 e0 (issue n eid events).
Proof.
  intros Hf Hst Hle. unfold tracksCounter, issue; simpl.
  destruct (awaiting_replicate n eid) as (_ & Hs & Hfl).
  split; [by apply Forall_replicate|].
  exists e0. rewrite Hs, Hfl. split_and!; [done..|lia|done|done].
Qed.

(** One resumption keeps the bookkeeping, and a call that comes back with
    [null] found the event full. *)
Lemma tracksCounter_resume (i : nat) (now : string) (σ σ' : Server) :
  tracksCounter eid i0 e0 σ →
  resume i now σ = Some σ' →
  tracksCounter eid i0 e0 σ'
  ∧ (calls σ' !! i = Some (Returned None) →
     ∃ e, findEvent eid (store σ) = Some (i0, e)
          ∧ status e = publicado ∧ capacity e <= registeredCount e).
Proof.
  intros (Haw & e & Hf & Hst & Hcap & Hcnt & Hle & Hfull) Hres.
  apply resume_inv in Hres as (eid' & Hc & Hstore & Hcalls).
  assert (eid' = eid) as ->.
  { pose proof (Forall_lookup_1 _ _ _ _ Haw Hc eq_refl). congruence. }
  assert (i < length (calls σ))%nat as Hlen by eauto using lookup_lt_Some.
  destruct (decide (registeredCount e < capacity e)) as [Hlt|Hge].
  - rewrite (registerForEvent_accepts _ now _ _ _ Hf Hlt Hst) in Hstore, Hcalls.
    simpl in Hstore, Hcalls.
    pose proof (count_insert isSuccess _ _ _
                  (Returned (Some (registered e now))) Hc) as Hs.
    pose proof (count_insert isFailure _ _ _
                  (Returned (Some (registered e now))) Hc) as Hfl.
    simpl in Hs, Hfl. split.
    + split.
      * rewrite Hcalls. apply Forall_insert; [done|]. done.
      * exists (registered e now). rewrite Hstore, Hcalls.
        unfold successes, failures in *. split_and!.
        -- apply (findEvent_insert_same _ _ _ e); [done|].
           simpl. by apply findEvent_Some in Hf as [_ ?].
        -- done.
        -- done.
        -- simpl. lia.
        -- simpl. lia.
        -- intros Hnz. simpl. assert (capacity e <= registeredCount e); [|lia].
           apply Hfull. lia.
    + rewrite Hcalls, list_lookup_insert_eq by done. done.
  - assert (capacity e <= registeredCount e) as Hfull' by lia.
    rewrite (registerForEvent_full _ now _ _ _ Hf Hfull') in Hstore, Hcalls.
    simpl in Hstore, Hcalls.
    pose proof (count_insert isSuccess _ _ _ (Returned None) Hc) as Hs.
    pose proof (count_insert isFailure _ _ _ (Returned None) Hc) as Hfl.
    simpl in Hs, Hfl. split.
    + split.
      * rewrite Hcalls. apply Forall_insert; [done|]. done.
      * exists e. rewrite Hstore, Hcalls.
        unfold successes, failures in *. split_and!; [done..| |done|done].
        rewrite Hcnt. f_equal. lia.
    + intros _. exists e. done.
Qed.

Lemma tracksCounter_run (schedule : list (nat * string)) (σ σ' : Server) :
  tracksCounter eid i0 e0 σ →
  run schedule σ = Some σ' →
  tracksCounter eid i0 e0 σ'.
Proof.
  revert σ. induction schedule as [|[i now] rest IH]; intros σ Hinv Hrun.
  - by simplify_eq/=.
  - simpl in Hrun. destruct (resume i now σ) as [σ1|] eqn:Hres; [|done].
    eapply IH; [|done]. by eapply tracksCounter_resume.
Qed.

Lemma run_length (schedule : list (nat * string)) (σ σ' : Server) :
  run schedule σ = Some σ' → length (calls σ') = length (calls σ).
Proof.
  revert σ. induction schedule as [|[i now] rest IH]; intros σ Hrun.
  - by simplify_eq/=.
  - simpl in Hrun. destruct (resume i now σ) as [σ1|] eqn:Hres; [|done].
    rewrite (IH _ Hrun).
    apply resume_inv in Hres as (? & _ & _ & ->). apply length_insert.
Qed.
End one_event.

(** C2. [n] callers have [registerForEvent(eid)] in flight against the
    published event found for [eid], which has [k] seats left, [0 <= k < n].
    The calls can be run to the end, and in whatever order the event loop
    resumes them: the count of the event is at every moment its initial
    count plus one per call that has succeeded, and never above the
    capacity; once all calls have returned exactly [k] have succeeded and
    [n - k] have returned [null], and the count equals the capacity; and
    each call that returns [null] found the event published and full. *)
Theorem concurrent_registrations_exactly_once (n : nat) (eid : string)
    (events : Store) (i0 : nat) (e0 : Event) (k : Z) :
  findEvent eid events = Some (i0, e0) →
  status e0 = publicado →
  k = capacity e0 - registeredCount e0 →
  0 <= k < Z.of_nat n →
  (∃ schedule σ, run schedule (issue n eid events) = Some σ ∧ settled σ)
  ∧ ∀ schedule σ, run schedule (issue n eid events) = Some σ →
      (∃ e, findEvent eid (store σ) = Some (i0, e)
            ∧ capacity e = capacity e0
            ∧ registeredCount e
              = registeredCount e0 + Z.of_nat (successes (calls σ))
            ∧ registeredCount e <= capacity e
            ∧ (settled σ → registeredCount e = capacity e))
      ∧ (settled σ →
         Z.of_nat (successes (calls σ)) = k
         ∧ Z.of_nat (failures (calls σ)) = Z.of_nat n - k)
      ∧ (∀ j now σ', resume j now σ = Some σ' →
           calls σ' !! j = Some (Returned None) →
           ∃ e, findEvent eid (store σ) = Some (i0, e)
                ∧ status e = publicado ∧ capacity e <= registeredCount e).
Proof.
  intros Hf Hst Hk Hkn. split; [apply run_to_settled|].
  intros schedule σ Hrun.
  assert (tracksCounter eid i0 e0 (issue n eid events)) as Hinit
    by (apply tracksCounter_issue; [done..|lia]).
  pose proof (tracksCounter_run _ _ _ _ _ _ Hinit Hrun) as Hinv.
  pose proof Hinv as (_ & e & Hfe & Hste & Hcap & Hcnt & Hle & Hfull).
  pose proof (run_length _ _ _ Hrun) as Hlen.
  simpl in Hlen. rewrite length_replicate in Hlen.
  pose proof (calls_partition (calls σ)) as Hpart.
  assert (settled σ →
          Z.of_nat (successes (calls σ)) = k
          ∧ Z.of_nat (failures (calls σ)) = Z.of_nat n - k) as Hend.
  { unfold settled. intros Hset.
    destruct (decide (failures (calls σ) = 0%nat)) as [Hz|Hnz]; [lia|].
    specialize (Hfull Hnz). lia. }
  split_and!.
  - exists e. split_and!; [done..|]. intros Hset. destruct (Hend Hset). lia.
  - done.
  - intros j now σ' Hres Hnull.
    destruct (tracksCounter_resume _ _ _ _ _ _ _ Hinv Hres) as [_ H].
    by apply H.
Qed.

Lemma concurrent_registrations_exactly_once_witness :
  ∃ σ, run [(1%nat, clock0); (0%nat, clock0)] lastSeat = Some σ
       ∧ Z.of_nat (successes (calls σ)) = 1
       ∧ Z.of_nat (failures (calls σ)) = Z.of_nat 2 - 1.
Proof.
  destruct (concurrent_registrations_exactly_once 2 "c1"
              [seedEvent "c1" publicado 1 0] 0
              (seedEvent "c1" publicado 1 0) 1)
    as [_ Hall]; [reflexivity | reflexivity | simpl; lia | lia |].
  eexists. split; [reflexivity|].
  refine (proj1 (proj2 (Hall [(1%nat, clock0); (0%nat, clock0)] _ eq_refl)) _).
  reflexivity.
Defined.

(** The creation form submitted with its preselected status, under the
    stand-in schema: the new event is stored as published. *)
Example createEventAction_preselected_status :
  ∃ e, (@createEventAction sampleExternals creationForm "c4" clock0 seedStore).2
       = seedStore ++ [e]
       ∧ status e = publicado.
Proof. eexists. split; vm_compute; reflexivity. Qed.

(** * Further properties of the data layer *)

(** ** Lookup by id, through the events that carry the id *)

Lemma getEventById_head eid events :
  (getEventById eid events).1 = head (filter (λ e, id e = eid) events).
Proof.
  unfold getEventById, findEvent. simpl.
  induction events as [|e events IH]; [done|].
  simpl. rewrite filter_cons. case_decide; [done|].
  rewrite <- IH. by destruct (list_find _ events) as [[? ?]|].
Qed.

Lemma findEvent_None_Forall eid events :
  findEvent eid events = None ↔ Forall (λ e, id e ≠ eid) events.
Proof. unfold findEvent. apply list_find_None. Qed.

Lemma findEvent_split eid events i e :
  findEvent eid events = Some (i, e) →
  events = take i events ++ e :: drop (S i) events
  ∧ Forall (λ x, id x ≠ eid) (take i events)
  ∧ id e = eid
  ∧ length (take i events) = i.
Proof.
  unfold findEvent. intros (Hl & Hid & Hmin)%list_find_Some.
  split_and!.
  - by rewrite take_drop_middle.
  - apply Forall_lookup. intros j x Hj.
    apply lookup_take_Some in Hj as [Hj Hlt]. by eapply Hmin.
  - done.
  - apply length_take_le. apply lookup_lt_Some in Hl. lia.
Qed.

Lemma filter_id_absent eid (l : list Event) :
  Forall (λ x, id x ≠ eid) l → filter (λ e, id e = eid) l = [].
Proof.
  induction 1 as [|x l Hx _ IH]; [done|].
  rewrite filter_cons. by case_decide.
Qed.

Lemma findEvent_app_fresh eid events e :
  Forall (λ x, id x ≠ eid) events →
  id e = eid →
  findEvent eid (events ++ [e]) = Some (length events, e).
Proof.
  intros Hfresh Hid. unfold findEvent.
  rewrite list_find_app_r by by apply list_find_None.
  simpl. rewrite decide_True by done. simpl. f_equal.
Qed.

(** ** Deleting *)

(** X1. [deleteEvent] returns [true] exactly when some event carries the id.
    When it returns [false] the store is as it was; when it returns [true]
    the store has lost one event, which carried the id, and every event
    with another id is still there, in the same order. *)
Theorem deleteEvent_removes_one (eid : string) (events : Store) :
  ((deleteEvent eid events).1 = true ↔ ∃ e, e ∈ events ∧ id e = eid)
  ∧ ((deleteEvent eid events).1 = false → (deleteEvent eid events).2 = events)
  ∧ ((deleteEvent eid events).1 = true →
     length (deleteEvent eid events).2 + 1 = length events
     ∧ (deleteEvent eid events).2 `sublist_of` events
     ∧ filter (λ e, id e ≠ eid) (deleteEvent eid events).2
       = filter (λ e, id e ≠ eid) events
     ∧ length (filter (λ e, id e = eid) (deleteEvent eid events).2) + 1
       = length (filter (λ e, id e = eid) events))%nat.
Proof.
  unfold deleteEvent.
  destruct (findEvent eid events) as [[i e]|] eqn:Hf; simpl.
  - pose proof (findEvent_Some _ _ _ _ Hf) as [Hl Hid].
    destruct (findEvent_split _ _ _ _ Hf) as (Hsplit & Hpre & _ & Hlen).
    split_and!; [|done|intros _].
    + split; [intros _|done]. exists e. split; [|done].
      by eapply list_elem_of_lookup_2.
    + split_and!.
      * rewrite length_delete by eauto. apply lookup_lt_Some in Hl. lia.
      * apply sublist_delete.
      * rewrite Hsplit at 2. rewrite delete_take_drop, !filter_app, filter_cons.
        by rewrite decide_False by (intros Hne; by apply Hne).
      * rewrite Hsplit at 2. rewrite delete_take_drop, !filter_app, filter_cons.
        rewrite decide_True by done. rewrite !length_app. simpl. lia.
  - split_and!; [|done|done].
    split; [done|]. intros (e & Hin & Hid).
    apply findEvent_None_Forall in Hf.
    exfalso. by eapply (proj1 (Forall_forall _ _) Hf e).
Qed.

(** X2. An event created under an id that no stored event carries is removed
    again by [deleteEvent] on that id, which gives back the store as it was
    before the creation. *)
Theorem createEvent_deleteEvent_round_trip (input : CreateEventInput)
    (excess : ExcessProps) (newId now : string) (events : Store) :
  Forall (λ e, id e ≠ newId) events →
  deleteEvent newId (createEvent input excess newId now events).2
  = (true, events).
Proof.
  intros Hfresh. unfold createEvent, deleteEvent. simpl.
  rewrite (findEvent_app_fresh newId events
             (newEventOf input excess newId now) Hfresh eq_refl).
  f_equal. rewrite delete_take_drop.
  rewrite take_app_length, drop_ge by (rewrite length_app; simpl; lia).
  by rewrite app_nil_r.
Qed.

Lemma createEvent_deleteEvent_round_trip_witness :
  Forall (λ e, id e ≠ "c4") seedStore
  ∧ deleteEvent "c4"
      (createEvent (seedInput borrador 150) noExcess "c4" clock0 seedStore).2
    = (true, seedStore).
Proof.
  assert (Forall (λ e, id e ≠ "c4") seedStore) as H
    by (repeat constructor; discriminate).
  split; [exact H|].
  exact (createEvent_deleteEvent_round_trip (seedInput borrador 150) noExcess
           "c4" clock0 seedStore H).
Defined.

(** X3. Reading back after a creation.  Under a fresh id [getEventById]
    returns the event just created; when a stored event already carries the
    id, it is that older event which is returned, and the new one cannot be
    reached by its id; every other id reads as before. *)
Theorem createEvent_getEventById (input : CreateEventInput)
    (excess : ExcessProps) (newId now : string) (events : Store) :
  let '(e, events') := createEvent input excess newId now events in
  (Forall (λ x, id x ≠ newId) events →
   (getEventById newId events').1 = Some e)
  ∧ (∀ old, (getEventById newId events).1 = Some old →
       (getEventById newId events').1 = Some old)
  ∧ (∀ other, other ≠ newId →
       (getEventById other events').1 = (getEventById other events).1).
Proof.
  unfold createEvent. lazy beta iota zeta. split_and!.
  - intros Hfresh. rewrite getEventById_head, filter_app.
    rewrite (filter_id_absent _ _ Hfresh). simpl.
    rewrite filter_cons. by rewrite decide_True by done.
  - intros old. rewrite !getEventById_head, filter_app.
    destruct (filter (λ e, id e = newId) events); [done|]. done.
  - intros other Hne. rewrite !getEventById_head, filter_app.
    rewrite (filter_cons _ (newEventOf _ _ _ _)).
    rewrite decide_False by (simpl; congruence).
    by rewrite filter_nil, app_nil_r.
Qed.

Lemma createEvent_getEventById_witness :
  let '(e, events') :=
    createEvent (seedInput borrador 150) noExcess "c4" clock0 seedStore in
  (getEventById "c4" events').1 = Some e.
Proof.
  pose proof (createEvent_getEventById (seedInput borrador 150) noExcess
                "c4" clock0 seedStore) as H.
  simpl in H. destruct H as (H & _ & _). simpl. apply H.
  repeat constructor; discriminate.
Defined.

(** ** The identifiers of the stored events *)

Lemma ids_insert_same (events : Store) i e e' :
  events !! i = Some e → id e' = id e →
  id <$> <[i := e']> events = id <$> events.
Proof.
  intros Hl Hid. rewrite list_fmap_insert. apply list_insert_id.
  by rewrite list_lookup_fmap, Hl, Hid.
Qed.

Lemma updateEvent_ids eid patch now events :
  id <$> (updateEvent eid patch now events).2 = id <$> events.
Proof.
  unfold updateEvent.
  destruct (findEvent eid events) as [[i e]|] eqn:Hf; [|done]. simpl.
  apply findEvent_Some in Hf as [Hl _]. by eapply ids_insert_same.
Qed.

Lemma registerForEvent_ids eid now events :
  id <$> (registerForEvent eid now events).2 = id <$> events.
Proof.
  destruct (registerForEvent_outcome eid now events) as [_|i e Hf _ _];
    [done|]. simpl.
  apply findEvent_Some in Hf as [Hl _]. by eapply ids_insert_same.
Qed.

Lemma deleteEvent_ids eid events :
  id <$> (deleteEvent eid events).2 `sublist_of` id <$> events.
Proof.
  unfold deleteEvent.
  destruct (findEvent eid events) as [[i e]|]; [|done]. simpl.
  rewrite list_fmap_delete. apply sublist_delete.
Qed.

(** X4. Updating and registering leave the list of identifiers of the store
    exactly as it is; deleting removes identifiers only; creating appends
    the new identifier.  So a store whose identifiers are pairwise distinct
    stays so under updates, registrations and deletions, and under a
    creation whose identifier is not yet in the store. *)
Theorem store_ids_stay_distinct (eid now newId : string) (patch : EventPatch)
    (input : CreateEventInput) (excess : ExcessProps) (events : Store) :
  NoDup (id <$> events) →
  id <$> (updateEvent eid patch now events).2 = id <$> events
  ∧ id <$> (registerForEvent eid now events).2 = id <$> events
  ∧ id <$> (createEvent input excess newId now events).2
    = (id <$> events) ++ [newId]
  ∧ NoDup (id <$> (updateEvent eid patch now events).2)
  ∧ NoDup (id <$> (registerForEvent eid now events).2)
  ∧ NoDup (id <$> (deleteEvent eid events).2)
  ∧ (newId ∉ id <$> events →
     NoDup (id <$> (createEvent input excess newId now events).2)).
Proof.
  intros Hnd.
  assert (id <$> (createEvent input excess newId now events).2
          = (id <$> events) ++ [newId]) as Hcreate.
  { unfold createEvent. simpl. by rewrite fmap_app. }
  split_and!.
  - apply updateEvent_ids.
  - apply registerForEvent_ids.
  - done.
  - by rewrite updateEvent_ids.
  - by rewrite registerForEvent_ids.
  - eapply sublist_NoDup; [done|apply deleteEvent_ids].
  - intros Hfresh. rewrite Hcreate. apply NoDup_app. split_and!; [done| |].
    + intros x Hx ->%list_elem_of_singleton. done.
    + apply NoDup_singleton.
Qed.

Lemma store_ids_stay_distinct_witness :
  NoDup (id <$> seedStore)
  ∧ NoDup (id <$> (deleteEvent "c2" seedStore).2)
  ∧ NoDup (id <$> (registerForEvent "c1" clock0 seedStore).2).
Proof.
  assert (NoDup (id <$> seedStore)) as H.
  { apply (bool_decide_unpack (NoDup (id <$> seedStore))). vm_compute. exact I. }
  destruct (store_ids_stay_distinct "c2" clock0 "c4" emptyPatch
              (seedInput borrador 150) noExcess seedStore H)
    as (_ & _ & _ & _ & _ & Hd & _).
  destruct (store_ids_stay_distinct "c1" clock0 "c4" emptyPatch
              (seedInput borrador 150) noExcess seedStore H)
    as (_ & _ & _ & _ & Hr & _ & _).
  split_and!; [exact H | exact Hd | exact Hr].
Defined.

(** ** Reading back what was written *)

(** X5. [getEventById] after [updateEvent] on the same id returns what
    [updateEvent] returned: the merged event when the id is known, [null]
    when it is not. *)
Theorem updateEvent_getEventById (eid : string) (patch : EventPatch)
    (now : string) (events : Store) :
  (getEventById eid (updateEvent eid patch now events).2).1
  = (updateEvent eid patch now events).1.
Proof.
  unfold updateEvent.
  destruct (findEvent eid events) as [[i e]|] eqn:Hf; simpl.
  - unfold getEventById. simpl.
    rewrite (findEvent_insert_same eid events i e (applyPatch e patch now) Hf);
      [done|].
    simpl. by apply findEvent_Some in Hf as [_ ?].
  - unfold getEventById. simpl. by rewrite Hf.
Qed.

(** X6. [updateEvent] never changes the identifier or the creation time of
    any stored event, and never the number of events: position by position
    the store holds an event with the same [id] and [createdAt] as before;
    every position other than the one of the event found is untouched, and
    with an unknown id the whole store is. *)
Theorem updateEvent_frame (eid : string) (patch : EventPatch) (now : string)
    (events : Store) :
  length (updateEvent eid patch now events).2 = length events
  ∧ (∀ j e', (updateEvent eid patch now events).2 !! j = Some e' →
       ∃ e, events !! j = Some e
            ∧ id e' = id e ∧ createdAt e' = createdAt e
            ∧ (id e ≠ eid → e' = e))
  ∧ (∀ i e, findEvent eid events = Some (i, e) →
       (updateEvent eid patch now events).2 !! i
       = Some (applyPatch e patch now)
       ∧ updatedAt (applyPatch e patch now) = now
       ∧ ∀ j, j ≠ i →
           (updateEvent eid patch now events).2 !! j = events !! j)
  ∧ (findEvent eid events = None →
     updateEvent eid patch now events = (None, events)).
Proof.
  unfold updateEvent.
  destruct (findEvent eid events) as [[i e]|] eqn:Hf; simpl.
  - pose proof (findEvent_Some _ _ _ _ Hf) as [Hl Hid].
    split_and!.
    + apply length_insert.
    + intros j e' Hj.
      destruct (decide (i = j)) as [->|Hne].
      * rewrite list_lookup_insert_eq in Hj by eauto using lookup_lt_Some.
        simplify_eq. exists e. split_and!; [done..|]. intros Hn. done.
      * rewrite list_lookup_insert_ne in Hj by done. exists e'. done.
    + intros i' e0 [= <- <-]. split_and!.
      * apply list_lookup_insert_eq. by eapply lookup_lt_Some.
      * done.
      * intros j Hj. by apply list_lookup_insert_ne.
    + done.
  - split_and!; [done| |done|done].
    intros j e' Hj. exists e'. done.
Qed.

Lemma deleteEvent_other_id eid other events :
  other ≠ eid →
  (getEventById other (deleteEvent eid events).2).1
  = (getEventById other events).1.
Proof.
  intros Hne. rewrite !getEventById_head. unfold deleteEvent.
  destruct (findEvent eid events) as [[i e]|] eqn:Hf; [|done]. simpl.
  destruct (findEvent_split _ _ _ _ Hf) as (Hsplit & _ & Hid & _).
  rewrite Hsplit at 2. rewrite delete_take_drop, !filter_app, filter_cons.
  by rewrite decide_False by congruence.
Qed.

(** X7. In a store whose identifiers are pairwise distinct, an id that was
    deleted is not found any more; whatever the store, deleting one id does
    not change what any other id reads. *)
Theorem deleteEvent_getEventById (eid : string) (events : Store) :
  NoDup (id <$> events) →
  (getEventById eid (deleteEvent eid events).2).1 = None
  ∧ ∀ other, other ≠ eid →
      (getEventById other (deleteEvent eid events).2).1
      = (getEventById other events).1.
Proof.
  intros Hnd. split; [|intros other; apply deleteEvent_other_id].
  rewrite getEventById_head. unfold deleteEvent.
  destruct (findEvent eid events) as [[i e]|] eqn:Hf; simpl.
  - destruct (findEvent_split _ _ _ _ Hf) as (Hsplit & Hpre & Hid & _).
    rewrite delete_take_drop, filter_app.
    rewrite (filter_id_absent _ _ Hpre). simpl.
    rewrite filter_id_absent; [done|].
    rewrite Hsplit, fmap_app, fmap_cons in Hnd.
    apply NoDup_app in Hnd as (_ & _ & Hnd).
    apply NoDup_cons in Hnd as [Hnotin _].
    apply Forall_forall. intros x Hx Hxid. apply Hnotin.
    rewrite Hid, <- Hxid. by apply list_elem_of_fmap_2.
  - apply findEvent_None_Forall in Hf. by rewrite filter_id_absent.
Qed.

Lemma deleteEvent_getEventById_witness :
  NoDup (id <$> seedStore)
  ∧ (getEventById "c2" (deleteEvent "c2" seedStore).2).1 = None.
Proof.
  assert (NoDup (id <$> seedStore)) as H.
  { apply (bool_decide_unpack (NoDup (id <$> seedStore))). vm_compute. exact I. }
  split; [exact H|].
  exact (proj1 (deleteEvent_getEventById "c2" seedStore H)).
Defined.

(** X8. When [registerForEvent] returns an event, [getEventById] on the same
    id then returns that very event, with the seat counted; when it returns
    [null], [getEventById] reads what it read before the call. *)
Theorem registerForEvent_getEventById (eid now : string) (events : Store) :
  match (registerForEvent eid now events).1 with
  | Some e' =>
      (getEventById eid (registerForEvent eid now events).2).1 = Some e'
      ∧ ∃ e, (getEventById eid events).1 = Some e
             ∧ registeredCount e' = registeredCount e + 1
  | None =>
      (getEventById eid (registerForEvent eid now events).2).1
      = (getEventById eid events).1
  end.
Proof.
  destruct (registerForEvent_outcome eid now events) as [_|i e Hf Hlt Hst];
    simpl; [done|].
  unfold getEventById. simpl.
  rewrite (findEvent_insert_same eid events i e (registered e now) Hf).
  - rewrite Hf. simpl. split; [done|]. by exists e.
  - simpl. by apply findEvent_Some in Hf as [_ ?].
Qed.

(** X9. Publishing, then registering.  For the event found for an id, with
    a seat left and whatever its status, an update whose only key is
    [status: 'publicado'] (what the publish button submits) followed by a
    registration succeeds and counts one seat. *)
Theorem publish_then_register (eid now1 now2 : string) (events : Store)
    (i : nat) (e : Event) :
  findEvent eid events = Some (i, e) →
  registeredCount e < capacity e →
  let published :=
    (updateEvent eid
       (mkEventPatch None None None (Some publicado) None None None None
          None None None None None None None None)
       now1 events).2 in
  ∃ e', registerForEvent eid now2 published
        = (Some e', <[i := e']> published)
        ∧ status e' = publicado
        ∧ registeredCount e' = registeredCount e + 1
        ∧ capacity e' = capacity e.
Proof.
  intros Hf Hlt. simpl.
  rewrite (updateEvent_found _ _ now1 _ _ _ Hf). simpl.
  set (patch := mkEventPatch _ _ _ _ _ _ _ _ _ _ _ _ _ _ _ _).
  assert (findEvent eid (<[i := applyPatch e patch now1]> events)
          = Some (i, applyPatch e patch now1)) as Hf'.
  { apply (findEvent_insert_same _ _ _ e); [done|].
    simpl. by apply findEvent_Some in Hf as [_ ?]. }
  exists (registered (applyPatch e patch now1) now2).
  split_and!; [|done..].
  by apply registerForEvent_accepts.
Qed.

Lemma publish_then_register_witness :
  ∃ e', (registerForEvent "c3" clock0
           (updateEvent "c3"
              (mkEventPatch None None None (Some publicado) None None None
                 None None None None None None None None None)
              clock0 seedStore).2).1 = Some e'
        ∧ registeredCount e' = 0 + 1.
Proof.
  destruct (publish_then_register "c3" clock0 clock0 seedStore 2
              (seedEvent "c3" borrador 150 0))
    as (e' & Hr & _ & Hc & _); [reflexivity | simpl; lia |].
  exists e'. split; [|exact Hc]. cbv zeta in Hr. by rewrite Hr.
Defined.

(** ** Available seats ([src/lib/utils.ts]) and the pages *)

(** X10. [getAvailableSpots] is never negative: it is [capacity -
    registered] while the event is not overbooked and 0 when it is;
    [hasAvailableSpots] holds exactly when [registered < capacity]. *)
Theorem getAvailableSpots_bounds (cap registered : Z) :
  0 <= getAvailableSpots cap registered
  ∧ (registered <= cap → registered + getAvailableSpots cap registered = cap)
  ∧ (cap <= registered → getAvailableSpots cap registered = 0)
  ∧ (hasAvailableSpots cap registered = true ↔ registered < cap).
Proof.
  unfold hasAvailableSpots, getAvailableSpots. split_and!; lia.
Qed.

Lemma registerForEvent_is_Some eid now events i e :
  findEvent eid events = Some (i, e) →
  is_Some (registerForEvent eid now events).1
  ↔ status e = publicado ∧ registeredCount e < capacity e.
Proof.
  intros Hf. split.
  - destruct (registerForEvent_outcome eid now events) as [_|i' e' Hf' Hlt Hst];
      simpl; [by intros [? ?]|].
    intros _. rewrite Hf in Hf'. by simplify_eq.
  - intros [Hst Hlt]. rewrite (registerForEvent_accepts _ now _ _ _ Hf Hlt Hst).
    simpl. eauto.
Qed.

(** X11. What the pages show agrees with what the data layer accepts.  For
    the event found for an id, the card calls it available exactly when a
    registration on that id succeeds; the detail page enables the
    registration exactly when the event is not past and a registration
    succeeds.  (The data layer itself does not look at the date.) *)
Theorem pages_agree_with_registerForEvent (eid now : string) (events : Store)
    (i : nat) (e : Event) (isPast : bool) :
  findEvent eid events = Some (i, e) →
  (cardIsAvailable e = true ↔ is_Some (registerForEvent eid now events).1)
  ∧ (pageIsAvailable isPast e = true
     ↔ isPast = false ∧ is_Some (registerForEvent eid now events).1)
  ∧ (cardIsSoldOut e = true → registerForEvent eid now events = (None, events)).
Proof.
  intros Hf. rewrite (registerForEvent_is_Some _ now _ _ _ Hf).
  unfold cardIsAvailable, pageIsAvailable, cardIsSoldOut, getAvailableSpots.
  split_and!.
  - rewrite andb_true_iff, negb_true_iff, bool_decide_eq_true, Z.eqb_neq.
    split; intros [? ?]; split; try done; lia.
  - rewrite !andb_true_iff, negb_true_iff, bool_decide_eq_true,
      Z.gtb_ltb, Z.ltb_lt.
    split; [intros [[? ?] ?]; split_and!; try done; lia
           |intros [? [? ?]]; split_and!; try done; lia].
  - rewrite Z.eqb_eq. intros Hz.
    apply (registerForEvent_full _ now _ _ _ Hf). lia.
Qed.

Lemma pages_agree_with_registerForEvent_witness :
  cardIsAvailable (seedEvent "c1" publicado 500 342) = true
  ∧ is_Some (registerForEvent "c1" clock0 seedStore).1.
Proof.
  split; [reflexivity|].
  apply (proj1 (pages_agree_with_registerForEvent "c1" clock0 seedStore 0
                  (seedEvent "c1" publicado 500 342) false eq_refl)).
  reflexivity.
Defined.

(** X12. A successful registration lowers the available seats of the event
    by exactly one, and leaves them non-negative. *)
Theorem registerForEvent_takes_one_spot (eid now : string) (events : Store)
    (i : nat) (e e' : Event) :
  findEvent eid events = Some (i, e) →
  (registerForEvent eid now events).1 = Some e' →
  getAvailableSpots (capacity e') (registeredCount e')
  = getAvailableSpots (capacity e) (registeredCount e) - 1
  ∧ 0 <= getAvailableSpots (capacity e') (registeredCount e').
Proof.
  intros Hf.
  destruct (registerForEvent_outcome eid now events) as [_|i0 e0 Hf0 Hlt Hst];
    simpl; [done|].
  intros [= <-]. rewrite Hf in Hf0. simplify_eq.
  unfold getAvailableSpots. simpl. lia.
Qed.

Lemma registerForEvent_takes_one_spot_witness :
  getAvailableSpots 500 343 = getAvailableSpots 500 342 - 1.
Proof.
  exact (proj1 (registerForEvent_takes_one_spot "c1" clock0 seedStore 0
                  (seedEvent "c1" publicado 500 342)
                  (registered (seedEvent "c1" publicado 500 342) clock0)
                  eq_refl eq_refl)).
Defined.

(** ** Statistics *)

Lemma sum_shift {A} (f : A → Z) (l : list A) (a : Z) :
  fold_left (λ sum e, sum + f e) l a
  = a + fold_left (λ sum e, sum + f e) l 0.
Proof.
  revert a. induction l as [|x l IH]; intros a; simpl; [lia|].
  rewrite (IH (a + f x)), (IH (0 + f x)). lia.
Qed.

Lemma sum_app {A} (f : A → Z) (l1 l2 : list A) :
  fold_left (λ sum e, sum + f e) (l1 ++ l2) 0
  = fold_left (λ sum e, sum + f e) l1 0
    + fold_left (λ sum e, sum + f e) l2 0.
Proof. rewrite fold_left_app. apply sum_shift. Qed.

Lemma sum_insert {A} (f : A → Z) (l : list A) (i : nat) (x y : A) :
  l !! i = Some x →
  fold_left (λ sum e, sum + f e) (<[i := y]> l) 0
  = fold_left (λ sum e, sum + f e) l 0 - f x + f y.
Proof.
  intros Hl.
  rewrite insert_take_drop by eauto using lookup_lt_Some.
  rewrite <- (take_drop_middle l i x Hl) at 3.
  rewrite !sum_app. simpl.
  rewrite (sum_shift f _ (0 + f y)), (sum_shift f _ (0 + f x)). lia.
Qed.

Lemma sum_bounds {A} (f g : A → Z) (l : list A) :
  Forall (λ e, 0 <= f e <= g e) l →
  0 <= fold_left (λ sum e, sum + f e) l 0
       <= fold_left (λ sum e, sum + g e) l 0.
Proof.
  induction 1 as [|x l Hx _ IH]; simpl; [lia|].
  rewrite (sum_shift f l (0 + f x)), (sum_shift g l (0 + g x)). lia.
Qed.

Lemma List_filter_filter {A} (p q : A → bool) (l : list A) :
  List.filter q (List.filter p l) = List.filter (λ x, p x && q x) l.
Proof.
  induction l as [|x l IH]; [done|]. simpl.
  destruct (p x); simpl; [|done]. destruct (q x); by rewrite IH.
Qed.

Lemma List_filter_insert_length {A} (p : A → bool) (l : list A) i x y :
  l !! i = Some x → p y = p x →
  length (List.filter p (<[i := y]> l)) = length (List.filter p l).
Proof.
  revert i. induction l as [|a l IH]; intros [|i] Hl Hp; simpl in *; try done.
  - injection Hl as ->. rewrite Hp. by destruct (p x).
  - destruct (p a); simpl; by rewrite (IH i).
Qed.

Lemma List_filter_length_le {A} (p : A → bool) (l : list A) :
  (length (List.filter p l) <= length l)%nat.
Proof.
  induction l as [|x l IH]; [done|]. simpl. destruct (p x); simpl; lia.
Qed.

(** X13. The statistics are consistent: the published events are at most
    the total, the upcoming ones at most the published ones, an empty store
    gives zeros, and in a store within bounds the registrations add up to
    something between 0 and the total capacity. *)
Theorem getEventStats_consistent `{Runtime} (nowMs : Z) (events : Store) :
  let stats := (getEventStats nowMs events).1 in
  total stats = length events
  ∧ (upcoming stats <= published stats <= total stats)%nat
  ∧ (events = [] → totalCapacity stats = 0 ∧ totalRegistered stats = 0)
  ∧ (storeInBounds events →
     0 <= totalRegistered stats <= totalCapacity stats)
  ∧ (getEventStats nowMs events).2 = events.
Proof.
  simpl. split; [done|].
  split; [split; apply List_filter_length_le|].
  split; [by intros ->|].
  split; [|done].
  intros Hinv. by apply (sum_bounds registeredCount capacity).
Qed.

Lemma getEventStats_consistent_witness :
  0 <= totalRegistered (@getEventStats sampleRuntime 0 seedStore).1
    <= totalCapacity (@getEventStats sampleRuntime 0 seedStore).1.
Proof.
  apply (@getEventStats_consistent sampleRuntime 0 seedStore).
  unfold seedStore, storeInBounds, countInBounds, seedEvent.
  repeat constructor; simpl; lia.
Defined.

(** X14. What a registration does to the statistics: a registration that
    succeeds raises [totalRegistered] by exactly one and leaves the four
    other figures as they are; a rejected one changes no figure. *)
Theorem registerForEvent_getEventStats `{Runtime} (eid now : string)
    (nowMs : Z) (events : Store) :
  let before := (getEventStats nowMs events).1 in
  let after :=
    (getEventStats nowMs (registerForEvent eid now events).2).1 in
  match (registerForEvent eid now events).1 with
  | Some _ =>
      totalRegistered after = totalRegistered before + 1
      ∧ totalCapacity after = totalCapacity before
      ∧ total after = total before
      ∧ published after = published before
      ∧ upcoming after = upcoming before
  | None => after = before
  end.
Proof.
  destruct (registerForEvent_outcome eid now events) as [_|i e Hf Hlt Hst];
    simpl; [done|].
  apply findEvent_Some in Hf as [Hl _]. split_and!.
  - rewrite (sum_insert registeredCount _ _ _ _ Hl). simpl. lia.
  - rewrite (sum_insert capacity _ _ _ _ Hl). simpl. lia.
  - apply length_insert.
  - by apply (List_filter_insert_length _ _ _ e).
  - rewrite !List_filter_filter. by apply (List_filter_insert_length _ _ _ e).
Qed.

Lemma registerForEvent_sum eid now events :
  sumRegistered (registerForEvent eid now events).2
  = sumRegistered events
    + match (registerForEvent eid now events).1 with
      | Some _ => 1
      | None => 0
      end.
Proof.
  unfold sumRegistered.
  destruct (registerForEvent_outcome eid now events) as [_|i e Hf Hlt Hst];
    simpl; [lia|].
  apply findEvent_Some in Hf as [Hl _].
  rewrite (sum_insert registeredCount _ _ _ _ Hl). simpl. lia.
Qed.

Lemma resume_sum i now σ σ' :
  resume i now σ = Some σ' →
  sumRegistered (store σ') + Z.of_nat (successes (calls σ))
  = sumRegistered (store σ) + Z.of_nat (successes (calls σ')).
Proof.
  intros (eid & Hc & -> & ->)%resume_inv.
  rewrite registerForEvent_sum. unfold successes.
  pose proof (count_insert isSuccess (calls σ) i (Awaiting eid)
    (Returned (registerForEvent eid now (store σ)).1) Hc) as Hs.
  simpl in Hs. destruct (registerForEvent eid now (store σ)).1; lia.
Qed.

(** X15. No registration is lost or counted twice, whatever the ids and the
    order of resumption: along every run of calls in flight the
    registrations of the whole store ([totalRegistered] of the statistics)
    grow by exactly the number of calls that returned an event during the
    run. *)
Theorem run_counts_every_success `{Runtime} (schedule : list (nat * string))
    (σ σ' : Server) (nowMs : Z) :
  run schedule σ = Some σ' →
  totalRegistered (getEventStats nowMs (store σ')).1
  = totalRegistered (getEventStats nowMs (store σ)).1
    + (Z.of_nat (successes (calls σ')) - Z.of_nat (successes (calls σ))).
Proof.
  change (run schedule σ = Some σ' →
          sumRegistered (store σ')
          = sumRegistered (store σ)
            + (Z.of_nat (successes (calls σ'))
               - Z.of_nat (successes (calls σ)))).
  revert σ. induction schedule as [|[i now] rest IH]; intros σ Hrun.
  - simplify_eq/=. lia.
  - simpl in Hrun. destruct (resume i now σ) as [σ1|] eqn:Hres; [|done].
    pose proof (resume_sum _ _ _ _ Hres). rewrite (IH σ1 Hrun). lia.
Qed.

Lemma run_counts_every_success_witness :
  ∃ σ', run [(3%nat, clock0); (1%nat, clock0); (0%nat, clock0); (2%nat, clock0)]
          mixedCallers = Some σ'
        ∧ totalRegistered (@getEventStats sampleRuntime 0 (store σ')).1
          = totalRegistered (@getEventStats sampleRuntime 0 seedStore).1
            + (Z.of_nat (successes (calls σ')) - 0).
Proof.
  eexists. split; [vm_compute; reflexivity|].
  exact (@run_counts_every_success sampleRuntime
           [(3%nat, clock0); (1%nat, clock0); (0%nat, clock0); (2%nat, clock0)]
           mixedCallers _ 0 eq_refl).
Defined.

(** What one registration does to each position of the store: the event
    keeps its id, capacity and status, and its count stays or grows by
    one. *)
Lemma registerForEvent_pointwise eid now events j e' :
  (registerForEvent eid now events).2 !! j = Some e' →
  ∃ e, events !! j = Some e
       ∧ id e' = id e ∧ capacity e' = capacity e ∧ status e' = status e
       ∧ registeredCount e <= registeredCount e' <= registeredCount e + 1.
Proof.
  destruct (registerForEvent_outcome eid now events) as [_|i e Hf Hlt Hst];
    simpl; intros Hj.
  - exists e'. split_and!; [done..|lia|lia].
  - apply findEvent_Some in Hf as [Hl _].
    destruct (decide (i = j)) as [->|Hne].
    + rewrite list_lookup_insert_eq in Hj by eauto using lookup_lt_Some.
      simplify_eq. exists e. simpl. split_and!; [done..|lia|lia].
    + rewrite list_lookup_insert_ne in Hj by done.
      exists e'. split_and!; [done..|lia|lia].
Qed.

Lemma run_ids schedule σ σ' :
  run schedule σ = Some σ' → id <$> store σ' = id <$> store σ.
Proof.
  revert σ. induction schedule as [|[i now] rest IH]; intros σ Hrun.
  - by simplify_eq/=.
  - simpl in Hrun. destruct (resume i now σ) as [σ1|] eqn:Hres; [|done].
    rewrite (IH σ1 Hrun).
    apply resume_inv in Hres as (eid & _ & -> & _).
    apply registerForEvent_ids.
Qed.

Lemma run_pointwise schedule σ σ' j e' :
  run schedule σ = Some σ' →
  store σ' !! j = Some e' →
  ∃ e, store σ !! j = Some e
       ∧ capacity e' = capacity e ∧ status e' = status e
       ∧ registeredCount e <= registeredCount e'.
Proof.
  revert σ. induction schedule as [|[i now] rest IH]; intros σ Hrun Hj.
  - simplify_eq/=. exists e'. split_and!; [done..|lia].
  - simpl in Hrun. destruct (resume i now σ) as [σ1|] eqn:Hres; [|done].
    destruct (IH σ1 Hrun Hj) as (e1 & Hj1 & Hc1 & Hs1 & Hr1).
    apply resume_inv in Hres as (eid & _ & Hstore & _).
    rewrite Hstore in Hj1.
    apply registerForEvent_pointwise in Hj1
      as (e & Hj0 & _ & Hc0 & Hs0 & Hr0).
    exists e. split_and!; [done|congruence|congruence|lia].
Qed.

(** X16. Whatever registrations are in flight, on whatever ids, and in
    whatever order they are resumed, the store after a run has the events
    of the store before it, position by position: the same ids in the same
    order, each event with the capacity and the status it had and a count
    that has not gone down; and counters that were within their bounds
    still are. *)
Theorem run_keeps_store_shape (schedule : list (nat * string))
    (σ σ' : Server) :
  run schedule σ = Some σ' →
  (storeInBounds (store σ) → storeInBounds (store σ'))
  ∧ id <$> store σ' = id <$> store σ
  ∧ length (store σ') = length (store σ)
  ∧ ∀ j e', store σ' !! j = Some e' →
      ∃ e, store σ !! j = Some e
           ∧ capacity e' = capacity e ∧ status e' = status e
           ∧ registeredCount e <= registeredCount e'.
Proof.
  intros Hrun.
  pose proof (run_ids _ _ _ Hrun) as Hids.
  split_and!.
  - intros Hinv. by eapply run_bounds.
  - done.
  - by rewrite <- (length_fmap id (store σ')), Hids, length_fmap.
  - intros j e'. by eapply run_pointwise.
Qed.

Lemma run_keeps_store_shape_witness :
  ∃ σ', run [(3%nat, clock0); (1%nat, clock0)] mixedCallers = Some σ'
        ∧ id <$> store σ' = id <$> seedStore
        ∧ storeInBounds (store σ').
Proof.
  eexists. split; [vm_compute; reflexivity|].
  pose proof (run_keeps_store_shape [(3%nat, clock0); (1%nat, clock0)]
                mixedCallers _ eq_refl) as (Hb & Hids & _ & _).
  split; [exact Hids|]. apply Hb.
  unfold mixedCallers, seedStore, storeInBounds, countInBounds, seedEvent.
  repeat constructor; simpl; lia.
Defined.

(** ** Listing *)

Lemma insertBy_Permutation {A} (before : A → A → bool) (x : A) (l : list A) :
  insertBy before x l ≡ₚ x :: l.
Proof.
  induction l as [|y l IH]; [done|]. simpl.
  destruct (before x y); [done|]. rewrite IH. apply Permutation_swap.
Qed.

Lemma sort_Permutation {A} (before : A → A → bool) (l : list A) :
  sort before l ≡ₚ l.
Proof.
  induction l as [|x l IH]; [done|]. simpl.
  by rewrite insertBy_Permutation, IH.
Qed.

Lemma List_filter_skip {A} (c : bool) (p : A → bool) (l : list A) :
  (if c then List.filter p l else l) = List.filter (λ x, negb c || p x) l.
Proof.
  destruct c; simpl; [done|].
  induction l as [|x l IH]; [done|]. simpl. by rewrite <- IH.
Qed.

Lemma List_filter_none {A} (p : A → bool) (l : list A) :
  (∀ x, p x = false) → List.filter p l = [].
Proof.
  intros Hp. induction l as [|x l IH]; [done|]. simpl. by rewrite Hp.
Qed.

Lemma List_filter_all {A} (p : A → bool) (l : list A) :
  (∀ x, p x = true) → List.filter p l = l.
Proof.
  intros Hp. induction l as [|x l IH]; [done|]. simpl. by rewrite Hp, IH.
Qed.

Lemma List_filter_elem_of {A} (p : A → bool) (l : list A) (x : A) :
  x ∈ List.filter p l ↔ x ∈ l ∧ p x = true.
Proof. rewrite !list_elem_of_In. apply filter_In. Qed.

Section listing_properties.
Context `{Runtime}.

Lemma applyFilters_passes (filters : EventFilters) (l : list Event) :
  applyFilters filters l = List.filter (passes filters) l.
Proof.
  unfold applyFilters, passes.
  rewrite !List_filter_skip.
  assert (∀ l0 : list Event,
            match f_priceMax filters with
            | Some priceMax =>
                List.filter (λ event, leNumber (price event) priceMax) l0
            | None => l0
            end
            = List.filter
                (λ event, match f_priceMax filters with
                          | Some priceMax => leNumber (price event) priceMax
                          | None => true
                          end) l0) as ->.
  { intros l0. destruct (f_priceMax filters); [done|].
    by rewrite List_filter_all. }
  rewrite !List_filter_filter.
  apply List.filter_ext. intros x. by rewrite !andb_assoc.
Qed.

(** X17. [getEvents] returns exactly the stored events that pass every
    filter in force, each as often as it is stored.  The text search, the
    category, the status and the two date bounds are in force when their
    key is present and not the empty string; [priceMax] is in force
    whenever it is present, also when it is 0 or NaN.  The result is a
    rearrangement of the stored events that pass; without filters it is a
    rearrangement of the whole store; the store itself is left as it is. *)
Theorem getEvents_lists_the_matches (filters : EventFilters) (events : Store) :
  (getEvents (Some filters) events).1 ≡ₚ List.filter (passes filters) events
  ∧ (∀ e, e ∈ (getEvents (Some filters) events).1 ↔
       e ∈ events
       ∧ (∀ s, f_search filters = Some s → s ≠ "" →
            matchesSearch (toLowerCase s) e = true)
       ∧ (∀ c, f_category filters = Some c → c ≠ "" → category e = c)
       ∧ (∀ s, f_status filters = Some s → s ≠ "" →
            statusName (status e) = s)
       ∧ (∀ d, f_dateFrom filters = Some d → d ≠ "" →
            ∃ t t0, getTime (date e) = Some t ∧ getTime d = Some t0
                    ∧ t0 <= t)
       ∧ (∀ d, f_dateTo filters = Some d → d ≠ "" →
            ∃ t t1, getTime (date e) = Some t ∧ getTime d = Some t1
                    ∧ t <= t1)
       ∧ (∀ bound, f_priceMax filters = Some bound →
            leNumber (price e) bound = true))
  ∧ (getEvents None events).1 ≡ₚ events
  ∧ (getEvents (Some filters) events).2 = events
  ∧ (length (getEvents (Some filters) events).1 <= length events)%nat.
Proof.
  assert ((getEvents (Some filters) events).1
          ≡ₚ List.filter (passes filters) events) as Hperm.
  { unfold getEvents. simpl. by rewrite sort_Permutation, applyFilters_passes. }
  split_and!.
  - done.
  - intros e. rewrite Hperm, List_filter_elem_of.
    apply and_iff_compat_l. unfold passes.
    rewrite !andb_true_iff.
    assert (∀ (v : option string) (q : string → bool) (Q : string → Prop),
              (∀ s, q s = true ↔ Q s) →
              negb (truthy v) || q (default "" v) = true
              ↔ ∀ s, v = Some s → s ≠ "" → Q s) as Hkey.
    { intros v q Q HqQ. destruct v as [s|]; simpl.
      - destruct (String.eqb_spec s "") as [->|Hne]; simpl.
        + split; [intros _ s' [= <-] Hs'; done|done].
        + rewrite HqQ. split; [intros HQ s' [= <-] _; done|].
          intros HQ. by apply HQ.
      - split; [intros _ s' ?; done|done]. }
    rewrite (Hkey (f_search filters)
               (λ s, matchesSearch (toLowerCase s) e)
               (λ s, matchesSearch (toLowerCase s) e = true)) by done.
    rewrite (Hkey (f_category filters) (λ c, String.eqb (category e) c)
               (λ c, category e = c)) by (intros; apply String.eqb_eq).
    rewrite (Hkey (f_status filters)
               (λ s, String.eqb (statusName (status e)) s)
               (λ s, statusName (status e) = s))
      by (intros; apply String.eqb_eq).
    rewrite (Hkey (f_dateFrom filters)
               (λ d, dateGe (getTime (date e)) (getTime d))
               (λ d, ∃ t t0, getTime (date e) = Some t ∧ getTime d = Some t0
                             ∧ t0 <= t)).
    2:{ intros d. unfold dateGe.
        destruct (getTime (date e)) as [t|], (getTime d) as [t0|];
          try (split; [done|by intros (? & ? & ? & ? & ?)]).
        rewrite Z.leb_le. split; [eauto|].
        intros (? & ? & ? & ? & ?). by simplify_eq. }
    rewrite (Hkey (f_dateTo filters)
               (λ d, dateLe (getTime (date e)) (getTime d))
               (λ d, ∃ t t1, getTime (date e) = Some t ∧ getTime d = Some t1
                             ∧ t <= t1)).
    2:{ intros d. unfold dateLe.
        destruct (getTime (date e)) as [t|], (getTime d) as [t1|];
          try (split; [done|by intros (? & ? & ? & ? & ?)]).
        rewrite Z.leb_le. split; [eauto|].
        intros (? & ? & ? & ? & ?). by simplify_eq. }
    assert (match f_priceMax filters with
            | Some priceMax => leNumber (price e) priceMax
            | None => true
            end = true
            ↔ ∀ bound, f_priceMax filters = Some bound →
                leNumber (price e) bound = true) as ->.
    { destruct (f_priceMax filters) as [b|].
      - split; [by intros ? ? [= <-]|eauto].
      - split; [done|done]. }
    tauto.
  - unfold getEvents. simpl. apply sort_Permutation.
  - done.
  - rewrite Hperm. apply List_filter_length_le.
Qed.
End listing_properties.

Section sorting_properties.
Context `{Runtime}.

Lemma dateBefore_false (a b : Event) :
  dateBefore a b = false →
  ∃ x y, getTime (date a) = Some x ∧ getTime (date b) = Some y ∧ y < x.
Proof.
  unfold dateBefore.
  destruct (getTime (date a)) as [x|], (getTime (date b)) as [y|]; try done.
  intros Hlt%Z.leb_gt. exists x, y. split_and!; [done..|lia].
Qed.

Lemma dateBefore_true (a b : Event) :
  is_Some (getTime (date a)) → is_Some (getTime (date b)) →
  dateBefore a b = true → dateOrdered a b.
Proof.
  unfold dateBefore, dateOrdered. intros [x Hx] [y Hy]. rewrite Hx, Hy.
  intros Hle%Z.leb_le. exists x, y. split_and!; [done..|lia].
Qed.

Lemma dateOrdered_trans (a b c : Event) :
  dateOrdered a b → dateOrdered b c → dateOrdered a c.
Proof.
  intros (x & y & Hx & Hy & Hxy) (y' & z & Hy' & Hz & Hyz).
  exists x, z. split_and!; [done..|]. simplify_eq. lia.
Qed.

Lemma insertBy_sorted (x : Event) (l : list Event) :
  is_Some (getTime (date x)) →
  Forall (λ e, is_Some (getTime (date e))) l →
  StronglySorted dateOrdered l →
  StronglySorted dateOrdered (insertBy dateBefore x l).
Proof.
  intros Hx Hvalid Hsorted.
  induction Hsorted as [|y l Hsorted IH Hy]; simpl.
  - repeat constructor.
  - apply Forall_cons in Hvalid as [Hvy Hvalid].
    destruct (dateBefore x y) eqn:Hb.
    + assert (dateOrdered x y) as Hxy by by apply dateBefore_true.
      constructor; [by constructor|].
      constructor; [done|].
      eapply Forall_impl; [exact Hy|]. intros z Hz.
      by eapply dateOrdered_trans.
    + constructor; [by apply IH|].
      rewrite insertBy_Permutation. constructor; [|done].
      apply dateBefore_false in Hb as (tx & ty & Htx & Hty & Hlt).
      exists ty, tx. split_and!; [done..|lia].
Qed.

(** X18. When the date of every stored event is valid, [getEvents] returns
    its result in date order, the earliest first: of any two events of the
    result, the one listed first is not later than the other. *)
Theorem getEvents_sorted_by_date (filters : option EventFilters)
    (events : Store) :
  Forall (λ e, is_Some (getTime (date e))) events →
  StronglySorted dateOrdered (getEvents filters events).1
  ∧ ∀ i j a b, (i < j)%nat →
      (getEvents filters events).1 !! i = Some a →
      (getEvents filters events).1 !! j = Some b →
      dateOrdered a b.
Proof.
  intros Hvalid.
  assert (∀ l, Forall (λ e, is_Some (getTime (date e))) l →
               StronglySorted dateOrdered (sort dateBefore l)) as Hsort.
  { induction 1 as [|x l Hx Hl IH]; simpl; [constructor|].
    apply insertBy_sorted; [done| |done].
    by rewrite sort_Permutation. }
  assert (StronglySorted dateOrdered (getEvents filters events).1) as Hs.
  { unfold getEvents. simpl. apply Hsort.
    destruct filters as [f|]; [|done].
    rewrite applyFilters_passes.
    apply Forall_forall. intros e [He _]%List_filter_elem_of.
    by eapply (proj1 (Forall_forall _ _) Hvalid). }
  split; [done|].
  revert Hs. generalize (getEvents filters events).1. intros l Hs.
  induction Hs as [|x l Hs IH Hx]; intros i j a b Hij Hi Hj; [done|].
  destruct j as [|j]; [lia|]. simpl in Hj.
  destruct i as [|i]; simpl in Hi.
  - simplify_eq. eapply (proj1 (Forall_forall _ _) Hx).
    by eapply list_elem_of_lookup_2.
  - eapply (IH i j); [lia|done..].
Qed.

Lemma insertBy_stable (t : Z) (x : Event) (l : list Event) :
  filter (λ e, getTime (date e) = Some t) (insertBy dateBefore x l)
  = filter (λ e, getTime (date e) = Some t) (x :: l).
Proof.
  induction l as [|y l IH]; [done|]. simpl.
  destruct (dateBefore x y) eqn:Hb; [done|].
  apply dateBefore_false in Hb as (tx & ty & Htx & Hty & Hlt).
  rewrite (filter_cons _ y (insertBy _ _ _)), IH.
  rewrite (filter_cons _ x (y :: l)), (filter_cons _ x l), (filter_cons _ y l).
  destruct (decide (getTime (date x) = Some t)) as [Hxt|Hxt];
    destruct (decide (getTime (date y) = Some t)) as [Hyt|Hyt]; try done.
  rewrite Htx in Hxt. rewrite Hty in Hyt. simplify_eq. lia.
Qed.

(** X19. When the date of every stored event is valid, the sort of
    [getEvents] is stable: the events of the result that fall on one and the
    same time are listed in the order in which the store holds them. *)
Theorem getEvents_keeps_store_order_on_ties (filters : EventFilters)
    (events : Store) (t : Z) :
  Forall (λ e, is_Some (getTime (date e))) events →
  filter (λ e, getTime (date e) = Some t) (getEvents (Some filters) events).1
  = filter (λ e, getTime (date e) = Some t)
      (List.filter (passes filters) events)
  ∧ filter (λ e, getTime (date e) = Some t) (getEvents None events).1
    = filter (λ e, getTime (date e) = Some t) events.
Proof.
  intros _.
  assert (∀ l, filter (λ e, getTime (date e) = Some t) (sort dateBefore l)
               = filter (λ e, getTime (date e) = Some t) l) as Hsort.
  { induction l as [|x l IH]; [done|]. simpl.
    by rewrite insertBy_stable, !filter_cons, IH. }
  unfold getEvents. simpl. rewrite !Hsort. by rewrite applyFilters_passes.
Qed.

(** X20. Filters that say nothing filter nothing.  When every key of the
    filters is absent or the empty string, and there is no [priceMax],
    [getEvents] returns what it returns without filters; so the events page
    lists the whole store when the query has no parameter or only empty
    ones, which is what the filter form submits for its "all" options. *)
Theorem empty_filters_list_everything (params : SearchParams)
    (events : Store) :
  truthy (q_search params) = false →
  truthy (q_category params) = false →
  truthy (q_status params) = false →
  truthy (q_priceMax params) = false →
  eventsPage params events = getEvents None events
  ∧ (eventsPage params events).1 ≡ₚ events.
Proof.
  intros Hs Hc Hst Hp.
  assert (eventsPage params events = getEvents None events) as Heq.
  { unfold eventsPage, getEvents, pageFilters, applyFilters. simpl.
    by rewrite Hs, Hc, Hst, Hp. }
  split; [done|]. rewrite Heq. unfold getEvents. simpl.
  apply sort_Permutation.
Qed.

(** X21. Filters that nothing can satisfy.  A [priceMax] that is not a
    number, a status filter that names none of the three statuses, a
    starting or closing date that is not a valid date: each makes
    [getEvents] return the empty list, whatever the store holds. *)
Theorem unsatisfiable_filters_list_nothing (filters : EventFilters)
    (events : Store) :
  (f_priceMax filters = Some NaN
   ∨ (∃ s, f_status filters = Some s ∧ s ≠ ""
           ∧ s ≠ "borrador" ∧ s ≠ "publicado" ∧ s ≠ "cancelado")
   ∨ (∃ d, f_dateFrom filters = Some d ∧ d ≠ "" ∧ getTime d = None)
   ∨ (∃ d, f_dateTo filters = Some d ∧ d ≠ "" ∧ getTime d = None)) →
  (getEvents (Some filters) events).1 = [].
Proof.
  intros Hcase. unfold getEvents. simpl. rewrite applyFilters_passes.
  rewrite List_filter_none; [done|]. intros e. unfold passes.
  assert (∀ s, s ≠ "" → truthy (Some s) = true) as Htruthy.
  { intros s Hs. simpl. by destruct (String.eqb_spec s ""). }
  destruct Hcase as [Hp|[(s & Hs & Hne & H1 & H2 & H3)
                        |[(d & Hd & Hne & Hinv)|(d & Hd & Hne & Hinv)]]].
  - rewrite Hp. simpl. by rewrite !andb_false_r.
  - rewrite Hs, (Htruthy s Hne). simpl.
    assert (String.eqb (statusName (status e)) s = false) as ->.
    { apply String.eqb_neq. by destruct (status e). }
    by rewrite !andb_false_r.
  - rewrite Hd, (Htruthy d Hne). simpl. rewrite Hinv.
    assert (dateGe (getTime (date e)) None = false) as ->
      by (unfold dateGe; by destruct (getTime (date e))).
    by rewrite !andb_false_r.
  - rewrite Hd, (Htruthy d Hne). simpl. rewrite Hinv.
    assert (dateLe (getTime (date e)) None = false) as ->
      by (unfold dateLe; by destruct (getTime (date e))).
    by rewrite !andb_false_r.
Qed.

End sorting_properties.

Lemma getEvents_keeps_store_order_on_ties_witness :
  Forall (λ e, is_Some (@getTime sampleRuntime (date e))) datedStore
  ∧ id <$> filter (λ e, @getTime sampleRuntime (date e) = Some 20260322)
             (@getEvents sampleRuntime None datedStore).1
    = ["d1"; "d3"].
Proof.
  assert (Forall (λ e, is_Some (@getTime sampleRuntime (date e))) datedStore)
    as Hvalid by (repeat constructor; vm_compute; eauto).
  split; [exact Hvalid|].
  rewrite (proj2 (@getEvents_keeps_store_order_on_ties sampleRuntime
                    (mkEventFilters None None None None None None)
                    datedStore 20260322 Hvalid)).
  reflexivity.
Defined.

Lemma getEvents_sorted_by_date_witness :
  id <$> (@getEvents sampleRuntime None datedStore).1 = ["d2"; "d1"; "d3"]
  ∧ StronglySorted (@dateOrdered sampleRuntime)
      (@getEvents sampleRuntime None datedStore).1.
Proof.
  split; [reflexivity|].
  apply (@getEvents_sorted_by_date sampleRuntime None datedStore).
  repeat constructor; vm_compute; eauto.
Defined.

Lemma empty_filters_list_everything_witness :
  (@eventsPage sampleRuntime
     (mkSearchParams (Some "") (Some "") (Some "") (Some "")) datedStore).1
  ≡ₚ datedStore.
Proof.
  apply (@empty_filters_list_everything sampleRuntime
           (mkSearchParams (Some "") (Some "") (Some "") (Some "")) datedStore);
    reflexivity.
Defined.

Lemma unsatisfiable_filters_list_nothing_witness :
  (@getEvents sampleRuntime
     (Some (@pageFilters sampleRuntime
              (mkSearchParams None None None (Some "gratis")))) datedStore).1
  = [].
Proof.
  apply (@unsatisfiable_filters_list_nothing sampleRuntime).
  left. reflexivity.
Defined.

(** * Further properties of the actions *)

(** ** Validation errors *)

Lemma collectErrors_from (issues : list ZodIssue)
    (acc : gmap string (list string)) (p : string) :
  fold_left
    (λ (errors : gmap string (list string)) issue,
       let path := String.concat "." (z_path issue) in
       <[path := default [] (errors !! path) ++ [z_message issue]]> errors)
    issues acc !! p
  = match z_message <$>
            filter (λ issue, String.concat "." (z_path issue) = p) issues with
    | [] => acc !! p
    | messages => Some (default [] (acc !! p) ++ messages)
    end.
Proof.
  revert acc. induction issues as [|x issues IH]; intros acc; [done|].
  simpl. rewrite IH, filter_cons.
  destruct (decide (String.concat "." (z_path x) = p)) as [->|Hne].
  - rewrite lookup_insert_eq, fmap_cons.
    destruct (z_message <$> filter _ issues) as [|m ms]; [done|].
    f_equal. change (default [] (Some ?l)) with l.
    by rewrite <- app_assoc.
  - by rewrite lookup_insert_ne.
Qed.

(** X22. The errors returned to the form are the messages of the issues,
    grouped by field: under the dotted path of a field stand the messages of
    exactly the issues with that path, in the order of the issues, and a
    path without issue has no entry. *)
Theorem collectErrors_groups_by_path (issues : list ZodIssue) (p : string) :
  collectErrors issues !! p
  = match z_message <$>
            filter (λ issue, String.concat "." (z_path issue) = p) issues with
    | [] => None
    | messages => Some messages
    end.
Proof. unfold collectErrors. by rewrite collectErrors_from, lookup_empty. Qed.

(** ** Tags *)

Lemma split_nonempty (sep : ascii) (s : string) : split sep s ≠ [].
Proof.
  destruct s as [|c rest]; simpl; [done|].
  destruct (Ascii.eqb c sep); [done|]. by destruct (split sep rest).
Qed.

(** X23. Splitting loses nothing: joining the pieces of [split] with the
    separator gives back the string; there is always at least one piece,
    and no piece contains the separator. *)
Theorem split_round_trip (sep : ascii) (s : string) :
  String.concat (String sep EmptyString) (split sep s) = s
  ∧ split sep s ≠ []
  ∧ Forall (λ piece, sep ∉ list_ascii_of_string piece) (split sep s).
Proof.
  split_and!; [| apply split_nonempty |].
  - induction s as [|c rest IH]; [done|]. simpl.
    pose proof (split_nonempty sep rest) as Hne.
    destruct (Ascii.eqb_spec c sep) as [->|Hc].
    + destruct (split sep rest) as [|w ws]; [done|].
      simpl in *. by rewrite IH.
    + destruct (split sep rest) as [|w ws]; [done|].
      simpl in *. destruct ws as [|w' ws]; simpl in *; by rewrite <- IH.
  - induction s as [|c rest IH]; simpl.
    + repeat constructor. simpl. by intros ?%elem_of_nil.
    + destruct (Ascii.eqb_spec c sep) as [->|Hc].
      * constructor; [|done]. simpl. by intros ?%elem_of_nil.
      * pose proof (split_nonempty sep rest) as Hne.
        destruct (split sep rest) as [|w ws]; [done|].
        apply Forall_cons in IH as [Hw Hws]. constructor; [|done].
        simpl. intros [->|?]%elem_of_cons; done.
Qed.

(** X24. The tags that reach the schema are never empty: each tag is the
    trimmed form of a piece between two commas of the field, and the pieces
    that trim to nothing are dropped. *)
Theorem tagsOf_no_empty_tag `{Externals} (s : string) :
  Forall (λ tag, tag ≠ "" ∧ ∃ piece, piece ∈ split "," s ∧ tag = trim piece)
    (tagsOf s).
Proof.
  unfold tagsOf. apply Forall_forall. intros tag Htag.
  apply List_filter_elem_of in Htag as [Hin Hne]. split.
  - unfold nonEmpty in Hne. apply negb_true_iff, String.eqb_neq in Hne. done.
  - apply list_elem_of_fmap in Hin as (piece & -> & Hpiece). eauto.
Qed.

(** ** Failures of the actions *)

(** X25. The actions that write are all-or-nothing on the store.  When
    [updateEventAction], [createEventAction] or [deleteEventAction] reports
    a failure the store is exactly as before; an update never changes the
    number of events, a successful creation adds one event and a successful
    deletion removes one. *)
Theorem actions_leave_store_on_failure `{Externals} (eid newId now : string)
    (formData : FormData) (events : Store) :
  (success (updateEventAction eid formData now events).1 = false →
   (updateEventAction eid formData now events).2 = events)
  ∧ (success (createEventAction formData newId now events).1 = false →
     (createEventAction formData newId now events).2 = events)
  ∧ (success (deleteEventAction eid events).1 = false →
     (deleteEventAction eid events).2 = events)
  ∧ length (updateEventAction eid formData now events).2 = length events
  ∧ (success (createEventAction formData newId now events).1 = true →
     length (createEventAction formData newId now events).2
     = S (length events))
  ∧ (success (deleteEventAction eid events).1 = true →
     S (length (deleteEventAction eid events).2) = length events).
Proof.
  split_and!.
  - unfold updateEventAction, updateEvent.
    destruct (createEventSchema_partial_safeParse _); [done|].
    by destruct (findEvent eid events) as [[i e]|].
  - unfold createEventAction.
    by destruct (createEventSchema_safeParse _).
  - unfold deleteEventAction, deleteEvent.
    by destruct (findEvent eid events) as [[i e]|].
  - unfold updateEventAction, updateEvent.
    destruct (createEventSchema_partial_safeParse _); [done|].
    destruct (findEvent eid events) as [[i e]|]; [|done].
    simpl. apply length_insert.
  - unfold createEventAction.
    destruct (createEventSchema_safeParse _); [done|].
    simpl. intros _. rewrite length_app. simpl. lia.
  - unfold deleteEventAction, deleteEvent.
    destruct (findEvent eid events) as [[i e]|] eqn:Hf; [|done].
    simpl. intros _. apply findEvent_Some in Hf as [Hl _].
    rewrite length_delete by eauto. apply lookup_lt_Some in Hl. lia.
Qed.

(** X26. The update form cannot blank a field: a field submitted with the
    empty string is treated like a field that was not submitted, so the two
    forms give the schema the same object and the action the same result. *)
Theorem updateEventAction_ignores_empty_fields `{Externals} (eid now : string)
    (formData : FormData) (events : Store) :
  rawPatchOf (λ name, orUndefined (formData name)) = rawPatchOf formData
  ∧ updateEventAction eid (λ name, orUndefined (formData name)) now events
    = updateEventAction eid formData now events.
Proof.
  assert (rawPatchOf (λ name, orUndefined (formData name))
          = rawPatchOf formData) as Hraw.
  { unfold rawPatchOf, orUndefined, truthy, nonEmpty.
    f_equal;
      match goal with
      | |- context [formData ?name] =>
          destruct (formData name) as [s|]; [|done];
          destruct (String.eqb s "") eqn:Hs; simpl; [done|by rewrite Hs]
      end. }
  split; [done|]. unfold updateEventAction. by rewrite Hraw.
Qed.
